(** * catbee-tree-router: a shallow embedding of [src/tree-router.js]

    The development follows the source file top-down: JavaScript values and
    strings, plain objects used as maps, the [Route] class (whose instances
    live in a heap, because a route refers to its parent by reference and the
    parent is assigned after construction), the [RouteRegistry], and the
    [TreeRouterService].  The two imported modules, [routeHelper] of catbee
    and [URI] of catberry-uri, are not part of the repository; they enter the
    development through the interface [RouteHelper]. *)

From Stdlib Require Import ZArith Ascii String.
From stdpp Require Import base option list sorting strings pretty.

Open Scope string_scope.

(** ** JavaScript values *)

(** The primitive values that reach the router: route names, handler
    signals and argument values.  [VNum] carries the integral numbers that
    JavaScript prints in plain decimal notation (magnitude below 10^21). *)
Inductive value :=
| VUndefined
| VNull
| VBool (b : bool)
| VNum (z : Z)
| VStr (s : string).

#[global] Instance value_eq_dec : EqDecision value.
Proof. solve_decision. Defined.

(** ToBoolean: what [!x], [x || y] and [x ? a : b] test. *)
Definition truthy (v : value) : bool :=
  match v with
  | VUndefined | VNull => false
  | VBool b => b
  | VNum z => negb (z =? 0)%Z
  | VStr s => negb (String.eqb s "")
  end.

(** ToString: what template literals, property keys, string concatenation
    and the second argument of [String.prototype.replace] apply. *)
Definition to_string (v : value) : string :=
  match v with
  | VUndefined => "undefined"
  | VNull => "null"
  | VBool true => "true"
  | VBool false => "false"
  | VNum z => pretty z
  | VStr s => s
  end.

(** [a || b] *)
Definition js_or (a b : value) : value := if truthy a then a else b.

(** ** JavaScript strings *)

(** [s.startsWith(t)] *)
Definition startsWith (s t : string) : bool := String.prefix t s.

(** [s.substr(start, len)] for in-range arguments. *)
Definition substr (s : string) (start len : nat) : string :=
  String.substring start len s.

(** [s.endsWith(t)] *)
Definition endsWith (s t : string) : bool :=
  (String.length t <=? String.length s)%nat
  && String.eqb (substr s (String.length s - String.length t) (String.length t)) t.

(** The first occurrence of [pat] in [s], as the text before it and the
    text after it ([s.indexOf(pat)] together with the two slices). *)
Fixpoint split_first (pat s : string) : option (string * string) :=
  if String.prefix pat s
  then Some ("", substr s (String.length pat) (String.length s - String.length pat))
  else match s with
       | "" => None
       | String c s' =>
           match split_first pat s' with
           | Some (before, after) => Some (String c before, after)
           | None => None
           end
       end.

(** GetSubstitution of ECMAScript for a pattern that is a string, hence
    without capture groups: [$$] stands for a dollar sign, [$&] for the
    matched text, [$`] for the text before the match and [$'] for the text
    after it; every other character, and a dollar sign followed by anything
    else, stands for itself. *)
Fixpoint get_substitution (matched before after repl : string) : string :=
  match repl with
  | "" => ""
  | String "$"%char (String "$"%char r) => "$" +:+ get_substitution matched before after r
  | String "$"%char (String "&"%char r) => matched +:+ get_substitution matched before after r
  | String "$"%char (String "`"%char r) => before +:+ get_substitution matched before after r
  | String "$"%char (String "'"%char r) => after +:+ get_substitution matched before after r
  | String c r => String c (get_substitution matched before after r)
  end.

(** [s.replace(pat, repl)] with a string pattern and a string replacement:
    only the first occurrence is replaced. *)
Definition replace (s pat repl : string) : string :=
  match split_first pat s with
  | None => s
  | Some (before, after) =>
      before +:+ get_substitution pat before after repl +:+ after
  end.

(** ** Plain objects used as maps *)

(** An object is the list of its own enumerable data properties in creation
    order.  A property is found by the first binding of its key, so a list
    stands for the object that holds the first binding of each key. *)
Definition object (V : Type) : Type := list (string * V).

Section objects.
Context {V : Type}.
Implicit Types (o : object V) (k : string) (v : V).

(** [o[k]]; [None] is JavaScript's [undefined] for a missing property. *)
Fixpoint obj_get o k : option V :=
  match o with
  | [] => None
  | (k', v) :: o' => if decide (k' = k) then Some v else obj_get o' k
  end.

(** [k in o], for an object without inherited properties. *)
Definition obj_has o k : bool := bool_decide (is_Some (obj_get o k)).

(** [o[k] = v]: an existing property keeps its place, a new one is
    created last. *)
Fixpoint obj_set o k v : object V :=
  match o with
  | [] => [(k, v)]
  | (k', v') :: o' =>
      if decide (k' = k) then (k, v) :: o' else (k', v') :: obj_set o' k v
  end.
End objects.

(** The value of a decimal digit. *)
Definition digit (c : ascii) : option N :=
  let n := N_of_ascii c in
  if (48 <=? n)%N && (n <=? 57)%N then Some (n - 48)%N else None.

Fixpoint parse_digits (acc : N) (s : string) : option N :=
  match s with
  | "" => Some acc
  | String c s' =>
      match digit c with
      | Some d => parse_digits (10 * acc + d)%N s'
      | None => None
      end
  end.

(** A property key is an array index when it is the canonical decimal form
    of an integer between 0 and 2^32 - 2. *)
Definition array_index (k : string) : option N :=
  match k with
  | "" => None
  | String c rest =>
      if bool_decide (c = "0"%char) && negb (String.eqb rest "") then None
      else match parse_digits 0 k with
           | Some n => if (n <? 2 ^ 32 - 1)%N then Some n else None
           | None => None
           end
  end.

Definition is_array_index (k : string) : Prop := is_Some (array_index k).

Definition index_le (k1 k2 : string) : Prop :=
  (default 0 (array_index k1) ≤ default 0 (array_index k2))%N.

#[global] Instance index_le_dec : RelDecision index_le.
Proof. intros k1 k2. unfold index_le. apply _. Defined.

(** The keys of an object in creation order: each key once, where it is
    first bound. *)
Fixpoint created_keys {V} (o : object V) : list string :=
  match o with
  | [] => []
  | (k, _) :: o' => k :: filter (λ k', k' ≠ k) (created_keys o')
  end.

(** OrdinaryOwnPropertyKeys, the order of [for (k in o)], [Object.keys(o)]
    and [Object.assign]: the array indices in ascending numeric order, then
    the other keys in creation order. *)
Definition own_keys {V} (o : object V) : list string :=
  let ks := created_keys o in
  merge_sort index_le (filter is_array_index ks)
    ++ filter (λ k, ¬ is_array_index k) ks.

(** The values of the properties in enumeration order. *)
Definition own_values {V} (o : object V) : list V :=
  omap (obj_get o) (own_keys o).

(** One source of [Object.assign]: every own property of [src] is written
    to the target; a source that is [null] or [undefined] is skipped. *)
Definition assign_from {V} (target : object V) (src : option (object V)) : object V :=
  match src with
  | None => target
  | Some s =>
      foldl (λ t k, match obj_get s k with Some v => obj_set t k v | None => t end)
            target (own_keys s)
  end.

(** [Object.assign(target, ...sources)] *)
Definition Object_assign {V} (target : object V) (sources : list (option (object V))) : object V :=
  foldl assign_from target sources.

(** ** Outcomes of calls *)

(** What a call can throw.  [RangeError] is the exhausted call stack of a
    recursion that does not end; [TypeError] is a method call on a reference
    that is not a route of the heap. *)
Inductive error :=
| DuplicatedRouteError (message : string)
| RangeError
| TypeError.

Inductive result (A : Type) :=
| Ok (x : A)
| Err (e : error).
Arguments Ok {A} x.
Arguments Err {A} e.

#[global] Instance result_ret : MRet result := λ A, Ok.
#[global] Instance result_bind : MBind result :=
  λ A B f m, match m with Ok x => f x | Err e => Err e end.
#[global] Instance result_fmap : FMap result :=
  λ A B f m, match m with Ok x => Ok (f x) | Err e => Err e end.

(** ** The imported route compiler *)

(** [routeHelper.compileRoute(new URI(template))] returns an object with a
    regular expression, of which the router calls [expression.test(path)],
    and a function [map], which the router calls as [map(new URI(uri))].
    Both are taken as functions of the strings involved: compiling and
    parsing hold no state and are assumed not to throw. *)
Record CompiledRoute := {
  expression_test : string → bool;
  route_map : string → object value
}.

Class RouteHelper := {
  compileRoute : string → CompiledRoute
}.

(** ** Handlers *)

(** A handler object [{ signal, args }]; [args] may be missing. *)
Record Handler := {
  signal_of : value;
  args_of : option (object value)
}.

(** [signal(name, args)] *)
Definition signal (name : value) (args : option (object value)) : Handler :=
  {| signal_of := name; args_of := Some (default [] args) |}.

(** ** class Route *)

(** A reference to a route object. *)
Definition addr := nat.

Module Route.

Record t := {
  _url : string;
  _name : value;
  _handler : Handler;
  _parent : option addr
}.

(** The route objects allocated so far; a reference is an index. *)
Abbreviation heap := (list t).

(** What [this.path()] computes with a call stack of depth [fuel]. *)
Fixpoint path_fuel (h : heap) (fuel : nat) (this : addr) : result string :=
  match fuel with
  | 0 => Err RangeError
  | S fuel' =>
      match h !! this with
      | None => Err TypeError
      | Some r =>
          match _parent r with
          | None => Ok (_url r)
          | Some parent =>
              parentPath ← path_fuel h fuel' parent;
              let parentPath :=
                if endsWith parentPath "/"
                then substr parentPath 0 (String.length parentPath - 1)
                else parentPath in
              mret (parentPath +:+ _url r)
          end
      end
  end.

(** [get name ()] *)
Definition name (r : t) : value := js_or (_name r) (VStr (_url r)).

(** [get parent ()] *)
Definition parent (r : t) : option addr := _parent r.

(** [set parent (parent)] on the route at [this]. *)
Definition set_parent (h : heap) (this : addr) (parent : option addr) : heap :=
  match h !! this with
  | None => h
  | Some r =>
      match _parent r with
      | Some _ => h
      | None =>
          <[this := {| _url := _url r; _name := _name r;
                       _handler := _handler r; _parent := parent |}]> h
      end
  end.

(** [new Route(url, name, handler)]: the new object and its reference. *)
Definition constructor (url : string) (name : value) (handler : Handler) : t :=
  {| _url := if startsWith url "/" then url else "/" +:+ url;
     _name := name;
     _handler := handler;
     _parent := None |}.

Definition new (h : heap) (url : string) (name : value) (handler : Handler)
  : heap * addr :=
  ((h ++ [constructor url name handler])%list, length h).

(** [path ()]: a parent chain without repetition visits at most
    [length h] routes, so this depth is never the limit for it. *)
Definition path (h : heap) (this : addr) : result string :=
  path_fuel h (S (length h)) this.

(** [toString ()] *)
Definition toString (h : heap) (this : addr) : result string :=
  match h !! this with
  | None => Err TypeError
  | Some r =>
      p ← path h this;
      mret ("Route (name=" +:+ to_string (name r) +:+ ", path=" +:+ p
            +:+ ", handler=" +:+ to_string (signal_of (_handler r)) +:+ ")")
  end.

(** What [handle] returns: [{ signal, args }]. *)
Record Handled := {
  handled_signal : value;
  handled_args : object value
}.

Section methods.
Context `{!RouteHelper}.

Definition _compiledPath (h : heap) (this : addr) : result CompiledRoute :=
  compileRoute <$> path h this.

(** [matches (path)] *)
Definition matches (h : heap) (this : addr) (p : string) : result bool :=
  compiled ← _compiledPath h this;
  mret (expression_test compiled p).

(** [handle (uri)] *)
Definition handle (h : heap) (this : addr) (uri : string) : result Handled :=
  match h !! this with
  | None => Err TypeError
  | Some r =>
      compiled ← _compiledPath h this;
      let uriArgs := route_map compiled uri in
      let args :=
        Object_assign [("routeName", name r)]
                      [Some uriArgs; args_of (_handler r)] in
      mret {| handled_signal := signal_of (_handler r); handled_args := args |}
  end.
End methods.

End Route.

(** [new DuplicatedRouteError(route)]: the message holds the string form
    of the route, so building the error calls [route.toString()]. *)
Definition new_DuplicatedRouteError (h : Route.heap) (route : addr) : result error :=
  s ← Route.toString h route;
  mret (DuplicatedRouteError
          ("Route name of " +:+ s
           +:+ " is duplicated, every route must provide its own unique name")).

(** ** class RouteRegistry *)

Module RouteRegistry.

(** [this._routes]: an object without prototype, from route names to
    route references. *)
Abbreviation t := (object addr).

Definition constructor : t := [].

Section methods.
Context `{!RouteHelper}.

(** The body of the [for ... in] loop of [matchingRoute], over the
    routes still to visit. *)
Fixpoint scan (h : Route.heap) (path : string) (routes : list addr)
  : result (option addr) :=
  match routes with
  | [] => mret None
  | currentRoute :: rest =>
      b ← Route.matches h currentRoute path;
      if b : bool then mret (Some currentRoute) else scan h path rest
  end.

(** [matchingRoute (path)]; [None] is [null]. *)
Definition matchingRoute (reg : t) (h : Route.heap) (path : string)
  : result (option addr) :=
  scan h path (own_values reg).

End methods.

(** [addRoute (route)]: the registry after the call, and whether the
    call returned or threw. *)
Definition addRoute (reg : t) (h : Route.heap) (route : addr) : t * result () :=
  match h !! route with
  | None => (reg, Err TypeError)
  | Some r =>
      let key := to_string (Route.name r) in
      if obj_has reg key
      then (reg, match new_DuplicatedRouteError h route with Ok e | Err e => Err e end)
      else (obj_set reg key route, Ok ())
  end.

(** [byName (name)]; [None] is [undefined]. *)
Definition byName (reg : t) (name : string) : option addr := obj_get reg name.

End RouteRegistry.

(** ** class TreeRouterService *)

Module TreeRouterService.

(** [_replaceParams (path, args)]; [args] may be missing. *)
Definition _replaceParams (path : string) (args : option (object value)) : string :=
  let o := default [] args in
  foldl (λ acc curr,
           replace acc (":" +:+ curr) (to_string (default VUndefined (obj_get o curr))))
        path (own_keys o).

(** [parent (name, args)]; [None] is [null]. *)
Definition parent (reg : RouteRegistry.t) (h : Route.heap)
    (name : string) (args : option (object value)) : result (option string) :=
  match RouteRegistry.byName reg name with
  | None => mret None
  | Some current =>
      match h !! current with
      | None => Err TypeError
      | Some r =>
          match Route.parent r with
          | None => mret None
          | Some parent =>
              p ← Route.path h parent;
              mret (Some (_replaceParams p args))
          end
      end
  end.

(** [named (name, args)]; [None] is [null]. *)
Definition named (reg : RouteRegistry.t) (h : Route.heap)
    (name : string) (args : option (object value)) : result (option string) :=
  match RouteRegistry.byName reg name with
  | None => mret None
  | Some found =>
      p ← Route.path h found;
      mret (Some (_replaceParams p args))
  end.

End TreeRouterService.

(** ** The path pattern compiler of the specification *)

Module PatternCompiler.

(** The pieces of [s] between the occurrences of [sep]. *)
Fixpoint split_on (sep : ascii) (s : string) : list string :=
  match s with
  | "" => [""]
  | String c s' =>
      if decide (c = sep) then "" :: split_on sep s'
      else match split_on sep s' with
           | piece :: pieces => String c piece :: pieces
           | [] => [String c ""]
           end
  end.

(** The segments of a path are separated by [/]. *)
Definition segments (path : string) : list string := split_on "/"%char path.

(** The path component of a template: what precedes its query string. *)
Definition template_path (template : string) : string :=
  default "" (head (split_on "?"%char template)).

(** A segment beginning with [:] is a positional parameter. *)
Definition is_parameter (segment : string) : bool := startsWith segment ":".

(** A parameter segment matches any single non-empty segment, a literal
    segment matches exactly itself. *)
Definition segment_matches (t c : string) : bool :=
  if is_parameter t then negb (String.eqb c "") else String.eqb t c.

(** Same number of segments, and segment by segment a match. *)
Fixpoint segments_match (ts cs : list string) : bool :=
  match ts, cs with
  | [], [] => true
  | t :: ts', c :: cs' => segment_matches t c && segments_match ts' cs'
  | _, _ => false
  end.

(** Modelled from the spec: [routeHelper.compileRoute] of the catbee
    package and the [URI] class of catberry-uri, which [tree-router.js]
    imports and which are not among the sources.  Section 4.1 of the
    specification: [test] returns true iff the path's segment count and
    all literal segments match exactly, parameter segments match any
    single non-empty segment, and matching is driven by the path segments
    of the template only, not by its query string. *)
Definition test (template path : string) : bool :=
  segments_match (segments (template_path template)) (segments path).

(** Modelled from the spec: the compiler of section 4.1, with the matcher
    [test] above; the extractor, which no property below depends on, is
    left open. *)
Definition helper (extract : string → string → object value) : RouteHelper :=
  {| compileRoute template :=
       {| expression_test := test template; route_map := extract template |} |}.

End PatternCompiler.

(** ** Worked examples from the test suite *)

Module Examples.

Definition handler : Handler :=
  {| signal_of := VStr "handleRoute";
     args_of := Some [("signalArgs", VStr "value")] |}.

(** [route = new Route('/thing', 'bar', handler);
    route.parent = new Route('/some', 'foo', handler)] *)
Definition thing_heap : Route.heap :=
  let '(h, route) := Route.new [] "/thing" (VStr "bar") handler in
  let '(h, some) := Route.new h "/some" (VStr "foo") handler in
  Route.set_parent h route (Some some).

(** A child under a parent whose template carries a query string. *)
Definition query_heap : Route.heap :=
  let '(h, child) := Route.new [] "/child" (VStr "child") handler in
  let '(h, parent) := Route.new h "/some/:id?foo=:bar" (VStr "parent") handler in
  Route.set_parent h child (Some parent).

Definition query_registry : RouteRegistry.t :=
  let reg := RouteRegistry.constructor in
  let reg := (RouteRegistry.addRoute reg query_heap 0).1 in
  (RouteRegistry.addRoute reg query_heap 1).1.

(** [new Route('/some/:id', 'test', handler)] *)
Definition some_id_heap : Route.heap :=
  (Route.new [] "/some/:id" (VStr "test") handler).1.

(** The routes [edit], [:id] and [users] of the Readme, built bottom-up:
    [edit] has received its parent [:id], and [:id] has no parent yet. *)
Definition users_heap : Route.heap :=
  let '(h, edit) := Route.new [] "edit" VUndefined handler in
  let '(h, id) := Route.new h ":id" VUndefined handler in
  let h := Route.set_parent h edit (Some id) in
  let '(h, users) := Route.new h "users" VUndefined handler in
  h.

(** A route [/item/:id] registered under the name [item]. *)
Definition item_heap : Route.heap :=
  (Route.new [] "/item/:id" (VStr "item") handler).1.

Definition item_registry : RouteRegistry.t :=
  (RouteRegistry.addRoute RouteRegistry.constructor item_heap 0).1.

(** Two routes that both accept one-segment paths: the first one registered
    is named [page], the second one [404]. *)
Definition pages_heap : Route.heap :=
  let '(h, page) := Route.new [] "/:page" (VStr "page") handler in
  let '(h, missing) := Route.new h "/:code" (VStr "404") handler in
  h.

Definition pages_registry : RouteRegistry.t :=
  let reg := RouteRegistry.constructor in
  let reg := (RouteRegistry.addRoute reg pages_heap 0).1 in
  (RouteRegistry.addRoute reg pages_heap 1).1.

End Examples.

(** ** Notions used to state the properties *)

Open Scope nat_scope.

(** [q] is [s] with a single trailing [/] stripped. *)
Definition stripped (s q : string) : Prop :=
  s = q +:+ "/" ∨ (q = s ∧ ∀ q', s ≠ q' +:+ "/").

(** The depth of a route: the number of parent links from it to a route
    without parent.  A route on a cyclic parent chain has no depth. *)
Inductive rooted (h : Route.heap) : addr → nat → Prop :=
| rooted_root a r :
    h !! a = Some r → Route._parent r = None → rooted h a 0
| rooted_child a r p d :
    h !! a = Some r → Route._parent r = Some p → rooted h p d → rooted h a (S d).

(** [registered rs reg]: the registry [reg] is what registering the routes
    [rs], in this order, leaves behind, each by a call of [addRoute] that
    returned (on the heap of the moment of the call). *)
Inductive registered : list addr → RouteRegistry.t → Prop :=
| registered_nil : registered [] RouteRegistry.constructor
| registered_add rs reg h route reg' :
    registered rs reg →
    RouteRegistry.addRoute reg h route = (reg', Ok ()) →
    registered (rs ++ [route]) reg'.

(** The substitution as the specification words it: the token is replaced
    by the value, taken as it is. *)
Definition replace_token (s token v : string) : string :=
  match split_first token s with
  | None => s
  | Some (before, after) => before +:+ v +:+ after
  end.

(** The substitution algorithm of the specification: for each key of the
    arguments, in iteration order, the token [:key] is replaced by the
    value of the key. *)
Definition spec_replaceParams (path : string) (args : option (object value)) : string :=
  let o := default [] args in
  foldl (λ acc key,
           replace_token acc (":" +:+ key) (to_string (default VUndefined (obj_get o key))))
        path (own_keys o).

(** A string without dollar sign. *)
Fixpoint dollar_free (s : string) : bool :=
  match s with
  | "" => true
  | String c s' => negb (Ascii.eqb c "$") && dollar_free s'
  end.

(** A sequence of parent assignments [route.parent = q], run in order. *)
Definition assign_parents (h : Route.heap) (ops : list (addr * option addr)) : Route.heap :=
  foldl (λ h op, Route.set_parent h op.1 op.2) h ops.

(** The local templates along the parent chain of a route, its own first
    and the root's last. *)
Inductive chain (h : Route.heap) : addr → list string → Prop :=
| chain_root a r :
    h !! a = Some r → Route._parent r = None → chain h a [Route._url r]
| chain_child a r p us :
    h !! a = Some r → Route._parent r = Some p → chain h p us →
    chain h a (Route._url r :: us).

(** The full path that a chain of templates spells. *)
Fixpoint join_templates (us : list string) : string :=
  match us with
  | [] => ""
  | [u] => u
  | u :: us' =>
      let parentPath := join_templates us' in
      (if endsWith parentPath "/"
       then substr parentPath 0 (String.length parentPath - 1)
       else parentPath) +:+ u
  end.

(** ** The rest of the module: args provider, route factory, registry *)

(** [registry ()] *)
Definition registry : RouteRegistry.t := RouteRegistry.constructor.

Module ArgsProvider.

Section methods.
Context `{!RouteHelper}.

(** The [location] that the framework hands over is a URI object of
    catberry-uri.  The provider reads its [path] and passes the object on
    to [handle], which applies [new URI] to it; [location_uri] stands for
    the text that this constructor takes from the object. *)
Context {Location : Type}.
Variable location_path : Location → string.
Variable location_uri : Location → string.

(** [getArgsAndSignalByUri (location)]; [None] is the empty object. *)
Definition getArgsAndSignalByUri (reg : RouteRegistry.t) (h : Route.heap)
    (location : Location) : result (option Route.Handled) :=
  route ← RouteRegistry.matchingRoute reg h (location_path location);
  match route with
  | Some route => Some <$> Route.handle h route (location_uri location)
  | None => mret None
  end.

End methods.

End ArgsProvider.

(** The [props] argument of the route factory: [{ name, handler }]. *)
Record Props := {
  props_name : value;
  props_handler : Handler
}.

Section route_factory.

(** [routeHelper.removeEndSlash], imported from catbee. *)
Variable removeEndSlash : string → string.

(** The loop [for (let child of children) child.parent = current]. *)
Definition adopt (h : Route.heap) (children : list addr) (current : addr) : Route.heap :=
  foldl (λ h child, Route.set_parent h child (Some current)) h children.

(** [routeFactory (routeRegistry) (url, props, children)]: the heap and the
    registry after the call, and the new route or what was thrown. *)
Definition routeFactory (reg : RouteRegistry.t) (h : Route.heap)
    (url : string) (props : Props) (children : list addr)
  : Route.heap * RouteRegistry.t * result addr :=
  let '(h, current) :=
    Route.new h (removeEndSlash url) (props_name props) (props_handler props) in
  let h := adopt h children current in
  let '(reg, outcome) := RouteRegistry.addRoute reg h current in
  (h, reg, match outcome with Ok _ => Ok current | Err e => Err e end).

End route_factory.

(** ** Further notions used to state the properties *)

(** Every route of the heap has a depth: no parent chain is cyclic or
    leaves the heap. *)
Definition acyclic (h : Route.heap) : Prop :=
  ∀ a, a < length h → ∃ d, rooted h a d.

(** Every template of the heap starts with a slash, as the constructor of
    [Route] makes it. *)
Definition slashed (h : Route.heap) : Prop :=
  ∀ a r, h !! a = Some r → startsWith (Route._url r) "/" = true.

(** [descends h a c]: following parents from [a] reaches [c]. *)
Inductive descends (h : Route.heap) (c : addr) : addr → Prop :=
| descends_here : descends h c c
| descends_parent a r p :
    h !! a = Some r → Route._parent r = Some p → descends h c p → descends h c a.

(** What [path()] strips from the parent's path. *)
Definition strip_end_slash (s : string) : string :=
  if endsWith s "/" then substr s 0 (String.length s - 1) else s.

(** [token] occurs in [s] with [before] in front of it, and nowhere
    earlier. *)
Definition first_occurrence (token s before after : string) : Prop :=
  s = before +:+ token +:+ after
  ∧ ∀ before' after', s = before' +:+ token +:+ after' →
      String.length before ≤ String.length before'.

(** The route [r] with another parent. *)
Definition with_parent (r : Route.t) (parent : option addr) : Route.t :=
  {| Route._url := Route._url r; Route._name := Route._name r;
     Route._handler := Route._handler r; Route._parent := parent |}.

(** * Properties *)

(** ** Worked examples *)

Example replace_first_only : replace "/a/:id/:id" ":id" "7" = "/a/7/:id".
Proof. reflexivity. Qed.

Example endsWith_ex : endsWith "/some/" "/" = true /\ endsWith "/some" "/" = false
  /\ endsWith "" "/" = false.
Proof. repeat split; reflexivity. Qed.

Example to_string_num : to_string (VNum 42) = "42" /\ to_string (VNum (-7)) = "-7".
Proof. split; reflexivity. Qed.

Example own_keys_indices_first :
  own_keys [("b", 1); ("10", 2); ("a", 3); ("9", 4); ("01", 5)] = ["9"; "10"; "b"; "a"; "01"].
Proof. reflexivity. Qed.

Example Object_assign_ex :
  Object_assign [("routeName", 1)] [Some [("id", 2); ("x", 3)]; None; Some [("x", 4); ("routeName", 5)]]
  = [("routeName", 5); ("id", 2); ("x", 4)].
Proof. reflexivity. Qed.

Example segments_ex :
  PatternCompiler.segments "/some/:id" = [""; "some"; ":id"]
  ∧ PatternCompiler.segments "/" = [""; ""]
  ∧ PatternCompiler.template_path "/some/:id?foo=:bar" = "/some/:id".
Proof. repeat split; reflexivity. Qed.

Example thing_path_combined : Route.path Examples.thing_heap 0 = Ok "/some/thing".
Proof. reflexivity. Qed.

Example parent_replaces_params :
  TreeRouterService.parent Examples.query_registry Examples.query_heap "child"
    (Some [("id", VStr "42"); ("bar", VStr "foo")]) = Ok (Some "/some/42?foo=foo").
Proof. reflexivity. Qed.

(** ** Strings *)

Lemma string_app_cons c s t : String c s +:+ t = String c (s +:+ t).
Proof. reflexivity. Qed.

Lemma string_app_assoc s t u : (s +:+ t) +:+ u = s +:+ (t +:+ u).
Proof.
  induction s as [|c s IH]; [done|]. by rewrite !string_app_cons, IH.
Qed.

Lemma substr_init s c :
  substr (s +:+ String c "") 0 (String.length (s +:+ String c "") - 1) = s.
Proof.
  unfold substr. induction s as [|c' s IH]; simpl; [done|].
  rewrite Nat.sub_0_r. simpl in IH.
  destruct (s +:+ String c "") as [|c'' s''] eqn:E.
  - by destruct s.
  - simpl in *. rewrite Nat.sub_0_r in IH. by rewrite IH.
Qed.

Lemma endsWith_slash_app s : endsWith (s +:+ "/") "/" = true.
Proof.
  unfold endsWith, substr. induction s as [|c s IH]; [done|].
  simpl in *. apply andb_true_iff in IH as [_ IH].
  rewrite Nat.sub_0_r.
  destruct (s +:+ "/") as [|c' s'] eqn:E; [by destruct s|].
  simpl in *. by rewrite Nat.sub_0_r in IH.
Qed.

Lemma endsWith_slash_inv s : endsWith s "/" = true → ∃ q, s = q +:+ "/".
Proof.
  unfold endsWith, substr. induction s as [|c s IH]; [done|].
  simpl. rewrite Nat.sub_0_r. intros H.
  destruct s as [|c' s'].
  - simpl in H. exists "". destruct (Ascii.eqb_spec c "/"%char) as [->|]; [done|].
    simpl in H. by destruct (Ascii.eqb c "/").
  - simpl in *. rewrite Nat.sub_0_r in IH. destruct (IH H) as [q Hq].
    exists (String c q). simpl. by rewrite Hq.
Qed.

(** What [path()] does to the parent's path: one trailing slash goes. *)
Lemma strip_trailing_slash s :
  stripped s (if endsWith s "/" then substr s 0 (String.length s - 1) else s).
Proof.
  destruct (endsWith s "/") eqn:E.
  - left. destruct (endsWith_slash_inv _ E) as [q ->]. by rewrite substr_init.
  - right. split; [done|]. intros q' ->. by rewrite endsWith_slash_app in E.
Qed.

(** ** The parent chain and the depth of the recursion of [path()] *)

Lemma path_fuel_S h n a :
  Route.path_fuel h (S n) a =
  match h !! a with
  | None => Err TypeError
  | Some r =>
      match Route._parent r with
      | None => Ok (Route._url r)
      | Some p =>
          parentPath ← Route.path_fuel h n p;
          Ok ((if endsWith parentPath "/"
               then substr parentPath 0 (String.length parentPath - 1)
               else parentPath) +:+ Route._url r)
      end
  end.
Proof. done. Qed.

Lemma rooted_functional h a d1 d2 : rooted h a d1 → rooted h a d2 → d1 = d2.
Proof.
  intros H1. revert d2.
  induction H1 as [a r Ha Hr|a r p d Ha Hr _ IH]; intros d2 H2;
    inversion H2; simplify_eq; [done|]. f_equal. by apply IH.
Qed.

Lemma rooted_chain h a d :
  rooted h a d →
  ∃ l : list addr,
    length l = S d ∧ NoDup l
    ∧ ∀ x, x ∈ l → x < length h ∧ ∃ d', d' ≤ d ∧ rooted h x d'.
Proof.
  induction 1 as [a r Ha Hr|a r p d Ha Hr Hp (l & Hlen & Hnd & Hl)].
  - exists [a]. split_and!; [done|apply NoDup_singleton|].
    intros x ->%list_elem_of_singleton. split; [by eapply lookup_lt_Some|].
    exists 0. split; [done|]. by eapply rooted_root.
  - exists (a :: l). split_and!.
    + simpl. by rewrite Hlen.
    + apply NoDup_cons. split; [|done].
      intros (_ & d' & Hd' & Hr')%Hl.
      assert (d' = S d) by (eapply rooted_functional; [done|by eapply rooted_child]).
      lia.
    + intros x [->|Hx]%elem_of_cons.
      * split; [by eapply lookup_lt_Some|].
        exists (S d). split; [done|]. by eapply rooted_child.
      * destruct (Hl x Hx) as (? & d' & ? & ?). split; [done|].
        exists d'. split; [lia|done].
Qed.

(** A chain that reaches a root does not repeat a route, so it is shorter
    than the heap. *)
Lemma rooted_bound h a d : rooted h a d → d < length h.
Proof.
  intros (l & Hlen & Hnd & Hl)%rooted_chain.
  assert (length l ≤ length (seq 0 (length h))) as Hle.
  { apply submseteq_length, NoDup_submseteq; [done|].
    intros x [Hx _]%Hl. apply elem_of_seq. lia. }
  rewrite length_seq in Hle. lia.
Qed.

Lemma path_fuel_rooted h n a s :
  Route.path_fuel h n a = Ok s → ∃ d, d < n ∧ rooted h a d.
Proof.
  revert a s. induction n as [|n IH]; intros a s; simpl; [done|].
  destruct (h !! a) as [r|] eqn:Ha; [|done].
  destruct (Route._parent r) as [p|] eqn:Hp.
  - destruct (Route.path_fuel h n p) as [pp|] eqn:Hpp; [|done].
    intros _. destruct (IH _ _ Hpp) as (d & Hd & Hr).
    exists (S d). split; [lia|]. by eapply rooted_child.
  - intros _. exists 0. split; [lia|]. by eapply rooted_root.
Qed.

(** Beyond the depth of the route, more stack changes nothing. *)
Lemma rooted_path_fuel h a d :
  rooted h a d → ∀ n m, d < n → d < m → Route.path_fuel h n a = Route.path_fuel h m a.
Proof.
  induction 1 as [a r Ha Hr|a r p d Ha Hr _ IH]; intros n m Hn Hm;
    (destruct n as [|n]; [lia|]); (destruct m as [|m]; [lia|]);
    rewrite !path_fuel_S, Ha, Hr; [done|].
  rewrite (IH n m) by lia. done.
Qed.

Lemma rooted_path_fuel_Ok h a d :
  rooted h a d → ∃ s, Route.path_fuel h (S d) a = Ok s.
Proof.
  induction 1 as [a r Ha Hr|a r p d Ha Hr _ [pp IH]];
    rewrite path_fuel_S, Ha, Hr; [eauto|].
  rewrite IH. simpl. eauto.
Qed.

(** The stack that [path] allows is enough for every route with a depth:
    [path] returns, and returns what any sufficient stack gives. *)
Lemma path_fuel_path h n a s : Route.path_fuel h n a = Ok s → Route.path h a = Ok s.
Proof.
  intros Hs. destruct (path_fuel_rooted _ _ _ _ Hs) as (d & Hd & Hr).
  unfold Route.path. rewrite <-Hs. apply (rooted_path_fuel _ _ _ Hr); [|done].
  apply rooted_bound in Hr. lia.
Qed.

Lemma path_rooted h a s : Route.path h a = Ok s → ∃ d, rooted h a d.
Proof. intros (d & _ & Hr)%path_fuel_rooted. eauto. Qed.

Lemma rooted_path h a d : rooted h a d → ∃ s, Route.path h a = Ok s.
Proof.
  intros Hr. destruct (rooted_path_fuel_Ok _ _ _ Hr) as [s Hs].
  exists s. by eapply path_fuel_path.
Qed.

(** The two branches of [path()]. *)
Lemma path_root h a r :
  h !! a = Some r → Route._parent r = None → Route.path h a = Ok (Route._url r).
Proof. intros Ha Hr. unfold Route.path. by rewrite path_fuel_S, Ha, Hr. Qed.

Lemma path_child h a r p parentPath :
  h !! a = Some r → Route._parent r = Some p → Route.path h p = Ok parentPath →
  Route.path h a =
  Ok ((if endsWith parentPath "/"
       then substr parentPath 0 (String.length parentPath - 1)
       else parentPath) +:+ Route._url r).
Proof.
  intros Ha Hr Hp. destruct (path_rooted _ _ _ Hp) as [d Hd].
  pose proof (rooted_bound _ _ _ Hd).
  unfold Route.path in *. rewrite path_fuel_S, Ha, Hr.
  rewrite (rooted_path_fuel _ _ _ Hd (length h) (S (length h))) by lia.
  by rewrite Hp.
Qed.

Lemma path_child_Err h a r p e :
  h !! a = Some r → Route._parent r = Some p → Route.path h p = Err e →
  ∃ e', Route.path h a = Err e'.
Proof.
  intros Ha Hr Hp. unfold Route.path at 1. rewrite path_fuel_S, Ha, Hr.
  destruct (Route.path_fuel h (length h) p) as [pp|e'] eqn:Hpp; [|by eauto].
  apply path_fuel_path in Hpp. congruence.
Qed.

(** ** Objects *)

Section object_facts.
Context {V : Type}.
Implicit Types (o : object V) (k : string) (v : V).

Lemma obj_get_set o k v k' :
  obj_get (obj_set o k v) k' = if decide (k = k') then Some v else obj_get o k'.
Proof.
  induction o as [|[k0 v0] o IH]; simpl.
  - by destruct (decide (k = k')).
  - destruct (decide (k0 = k)) as [->|Hne]; simpl.
    + by destruct (decide (k = k')).
    + destruct (decide (k0 = k')) as [->|]; [|done].
      by destruct (decide (k = k')).
Qed.

Lemma obj_get_set_eq o k v : obj_get (obj_set o k v) k = Some v.
Proof. rewrite obj_get_set. by destruct (decide (k = k)). Qed.

Lemma obj_get_set_ne o k v k' : k ≠ k' → obj_get (obj_set o k v) k' = obj_get o k'.
Proof. intros. rewrite obj_get_set. by destruct (decide (k = k')). Qed.

Lemma obj_get_is_Some o k : is_Some (obj_get o k) ↔ k ∈ o.*1.
Proof.
  induction o as [|[k0 v0] o IH]; simpl.
  - split; [by intros [? ?]|by intros ?%elem_of_nil].
  - rewrite elem_of_cons. destruct (decide (k0 = k)) as [->|Hne].
    + split; [by left|by eauto].
    + rewrite IH. split; [by right|]. by intros [?|?].
Qed.

Lemma obj_has_true o k : obj_has o k = true ↔ is_Some (obj_get o k).
Proof. unfold obj_has. by rewrite bool_decide_eq_true. Qed.

Lemma obj_has_false o k : obj_has o k = false ↔ obj_get o k = None.
Proof. unfold obj_has. by rewrite bool_decide_eq_false, eq_None_not_Some. Qed.

Lemma elem_of_created_keys o k : k ∈ created_keys o ↔ k ∈ o.*1.
Proof.
  induction o as [|[k0 v0] o IH]; [done|].
  cbn [created_keys]. rewrite fmap_cons, !elem_of_cons, list_elem_of_filter, IH.
  simpl. destruct (decide (k = k0)); tauto.
Qed.

Lemma created_keys_NoDup o : NoDup o.*1 → created_keys o = o.*1.
Proof.
  induction o as [|[k0 v0] o IH]; [done|].
  rewrite fmap_cons. intros [Hk Hnd]%NoDup_cons. cbn [created_keys].
  rewrite IH by done. simpl. f_equal.
  clear IH Hnd. induction (o.*1) as [|k l IHl]; [done|].
  apply not_elem_of_cons in Hk as [Hne Hk].
  rewrite filter_cons_True by done. f_equal. by apply IHl.
Qed.

(** Enumeration visits exactly the properties of the object. *)
Lemma elem_of_own_keys o k : k ∈ own_keys o ↔ is_Some (obj_get o k).
Proof.
  unfold own_keys. rewrite elem_of_app, merge_sort_Permutation.
  rewrite !list_elem_of_filter, !elem_of_created_keys, obj_get_is_Some.
  destruct (decide (is_array_index k)); tauto.
Qed.

(** Without array indices among pairwise different keys, the enumeration
    order is the creation order. *)
Lemma own_keys_creation_order o :
  NoDup o.*1 → (∀ k, k ∈ o.*1 → ¬ is_array_index k) → own_keys o = o.*1.
Proof.
  intros Hnd Hidx. unfold own_keys.
  rewrite created_keys_NoDup by done.
  assert (filter is_array_index o.*1 = []) as ->.
  { clear Hnd. induction (o.*1) as [|k l IH]; [done|].
    rewrite filter_cons_False by (apply Hidx; left).
    apply IH. intros k' Hk'. apply Hidx. by right. }
  simpl. clear Hnd. induction (o.*1) as [|k l IH]; [done|].
  rewrite filter_cons_True by (apply Hidx; left).
  f_equal. apply IH. intros k' Hk'. apply Hidx. by right.
Qed.

Lemma omap_obj_get_cons o k v (l : list string) :
  k ∉ l → omap (obj_get ((k, v) :: o)) l = omap (obj_get o) l.
Proof.
  induction l as [|k' l IH]; [done|].
  intros [Hne Hl]%not_elem_of_cons. cbn -[obj_get].
  rewrite IH by done. simpl. by rewrite decide_False by done.
Qed.

Lemma own_values_creation_order o :
  NoDup o.*1 → (∀ k, k ∈ o.*1 → ¬ is_array_index k) → own_values o = o.*2.
Proof.
  intros Hnd Hidx. unfold own_values. rewrite own_keys_creation_order by done.
  clear Hidx. induction o as [|[k v] o IH]; [done|].
  rewrite !fmap_cons in *. apply NoDup_cons in Hnd as [Hk Hnd].
  change (omap (obj_get ((k, v) :: o)) ((k, v).1 :: o.*1))
    with (match obj_get ((k, v) :: o) k with
          | Some y => y :: omap (obj_get ((k, v) :: o)) o.*1
          | None => omap (obj_get ((k, v) :: o)) o.*1
          end).
  rewrite omap_obj_get_cons by done. simpl.
  rewrite decide_True by done. f_equal. by apply IH.
Qed.
End object_facts.

(** One source of [Object.assign] overrides the target on its own keys
    and leaves the other properties alone. *)
Lemma assign_from_get {V} (target : object V) (src : option (object V)) k :
  obj_get (assign_from target src) k =
  match src ≫= (λ s, obj_get s k) with
  | Some v => Some v
  | None => obj_get target k
  end.
Proof.
  destruct src as [s|]; [|done]. simpl.
  assert (∀ ks t,
    obj_get (foldl (λ t k, match obj_get s k with
                           | Some v => obj_set t k v
                           | None => t
                           end) t ks) k =
    if decide (k ∈ ks)
    then match obj_get s k with Some v => Some v | None => obj_get t k end
    else obj_get t k) as Hfold.
  { induction ks as [|k0 ks IH]; intros t; [done|].
    cbn [foldl]. rewrite IH.
    destruct (decide (k = k0)) as [->|Hne].
    - rewrite (decide_True (P := k0 ∈ k0 :: ks)) by left.
      destruct (obj_get s k0) as [v|] eqn:Hs.
      + rewrite obj_get_set_eq. by destruct (decide (k0 ∈ ks)).
      + by destruct (decide (k0 ∈ ks)).
    - assert (obj_get (match obj_get s k0 with
                       | Some v => obj_set t k0 v
                       | None => t
                       end) k = obj_get t k) as ->.
      { destruct (obj_get s k0); [|done]. by rewrite obj_get_set_ne. }
      destruct (decide (k ∈ ks)) as [Hin|Hin].
      + rewrite decide_True by (by right). done.
      + rewrite decide_False; [done|]. by intros [?|?]%elem_of_cons. }
  rewrite Hfold. destruct (decide (k ∈ own_keys s)) as [Hin|Hin]; [done|].
  rewrite elem_of_own_keys, <-eq_None_not_Some in Hin. by rewrite Hin.
Qed.

(** ** Route.path *)

(** C6: [path()] of a route without parent is its local template; of a
    route with a parent it is the parent's full path, a single trailing
    slash stripped, followed by the local template; it returns for every
    route whose parent chain ends.  [Route('/thing')] under [Route('/some')]
    has the path [/some/thing]. *)
Theorem path_composition h this r :
  h !! this = Some r →
  (Route.parent r = None → Route.path h this = Ok (Route._url r))
  ∧ (∀ parent parentPath,
       Route.parent r = Some parent → Route.path h parent = Ok parentPath →
       ∃ q, stripped parentPath q ∧ Route.path h this = Ok (q +:+ Route._url r))
  ∧ (∀ d, rooted h this d → ∃ s, Route.path h this = Ok s)
  ∧ Route.path Examples.thing_heap 0 = Ok "/some/thing".
Proof.
  intros Ha. split_and!.
  - intros Hr. by eapply path_root.
  - intros p pp Hr Hp. eexists. split; [apply strip_trailing_slash|].
    by eapply path_child.
  - apply rooted_path.
  - reflexivity.
Qed.

(** At the route [/thing] of the test suite, whose parent is [/some]. *)
Lemma path_composition_witness :
  (Route.parent
     {| Route._url := "/thing"; Route._name := VStr "bar";
        Route._handler := Examples.handler; Route._parent := Some 1 |} = None →
   Route.path Examples.thing_heap 0 = Ok "/thing")
  ∧ (∀ parent parentPath,
       Route.parent
         {| Route._url := "/thing"; Route._name := VStr "bar";
            Route._handler := Examples.handler; Route._parent := Some 1 |} = Some parent →
       Route.path Examples.thing_heap parent = Ok parentPath →
       ∃ q, stripped parentPath q ∧ Route.path Examples.thing_heap 0 = Ok (q +:+ "/thing"))
  ∧ (∀ d, rooted Examples.thing_heap 0 d → ∃ s, Route.path Examples.thing_heap 0 = Ok s)
  ∧ Route.path Examples.thing_heap 0 = Ok "/some/thing".
Proof. apply (path_composition Examples.thing_heap 0). reflexivity. Defined.

(** ** Route.handle *)

(** C1: [handle(uri)] returns the handler's signal and an [args] object in
    which a key is bound by the handler's static args if they have it,
    else by the parameters extracted from the URI against the full path if
    they have it, else, for the key [routeName], to the name of the route. *)
Theorem handle_merges_args `{!RouteHelper} h this r uri fullPath :
  h !! this = Some r →
  Route.path h this = Ok fullPath →
  ∃ res,
    Route.handle h this uri = Ok res
    ∧ Route.handled_signal res = signal_of (Route._handler r)
    ∧ ∀ k,
        obj_get (Route.handled_args res) k =
        match args_of (Route._handler r) ≫= (λ staticArgs, obj_get staticArgs k) with
        | Some v => Some v
        | None =>
            match obj_get (route_map (compileRoute fullPath) uri) k with
            | Some v => Some v
            | None => if decide (k = "routeName") then Some (Route.name r) else None
            end
        end.
Proof.
  intros Ha Hp. unfold Route.handle, Route._compiledPath.
  rewrite Ha, Hp. eexists. split; [reflexivity|]. split; [reflexivity|].
  intros k. cbn [Route.handled_args]. unfold Object_assign. cbn [foldl].
  rewrite !assign_from_get. cbn [mbind option_bind obj_get].
  destruct (args_of (Route._handler r) ≫= _); [done|].
  destruct (obj_get (route_map _ _) k); [done|].
  destruct (decide ("routeName" = k)), (decide (k = "routeName")); congruence.
Qed.

(** The example of the test suite, with an extractor that finds [id]. *)
Lemma handle_merges_args_witness :
  ∃ res,
    Route.handle (H := PatternCompiler.helper (λ _ _, [("id", VStr "foo")]))
      Examples.thing_heap 0 "http://nowhere.com/some/thing" = Ok res
    ∧ Route.handled_signal res = VStr "handleRoute"
    ∧ ∀ k,
        obj_get (Route.handled_args res) k =
        match Some [("signalArgs", VStr "value")] ≫= (λ staticArgs, obj_get staticArgs k) with
        | Some v => Some v
        | None =>
            match obj_get [("id", VStr "foo")] k with
            | Some v => Some v
            | None => if decide (k = "routeName") then Some (VStr "bar") else None
            end
        end.
Proof.
  apply (handle_merges_args (H := PatternCompiler.helper (λ _ _, [("id", VStr "foo")]))
           Examples.thing_heap 0
           {| Route._url := "/thing"; Route._name := VStr "bar";
              Route._handler := Examples.handler; Route._parent := Some 1 |}
           "http://nowhere.com/some/thing" "/some/thing");
    reflexivity.
Defined.

(** ** RouteRegistry.matchingRoute *)

Section scan_facts.
Context `{!RouteHelper}.

Lemma scan_Some h p routes a :
  RouteRegistry.scan h p routes = Ok (Some a) ↔
  ∃ i, routes !! i = Some a ∧ Route.matches h a p = Ok true
       ∧ ∀ j b, j < i → routes !! j = Some b → Route.matches h b p = Ok false.
Proof.
  induction routes as [|c rest IH]; simpl.
  - split; [done|]. by intros (i & ? & _).
  - destruct (Route.matches h c p) as [[]|e] eqn:Hc; simpl.
    + split.
      * intros [= <-]. exists 0. split_and!; [done..|]. intros; lia.
      * intros ([|i] & Hi & Ha & Hbefore).
        -- by simplify_eq/=.
        -- specialize (Hbefore 0 c). simpl in Hbefore.
           rewrite Hc in Hbefore. discriminate Hbefore; [lia|done].
    + rewrite IH. split.
      * intros (i & Hi & Ha & Hbefore). exists (S i). split_and!; [done..|].
        intros [|j] b Hj Hb; simplify_eq/=; [done|].
        apply (Hbefore j); [lia|done].
      * intros ([|i] & Hi & Ha & Hbefore).
        -- simpl in Hi. congruence.
        -- exists i. split_and!; [done..|].
           intros j b Hj Hb. apply (Hbefore (S j)); [lia|done].
    + split; [done|].
      intros ([|i] & Hi & Ha & Hbefore).
      * simpl in Hi. congruence.
      * specialize (Hbefore 0 c). simpl in Hbefore.
        rewrite Hc in Hbefore. discriminate Hbefore; [lia|done].
Qed.

Lemma scan_None h p routes :
  RouteRegistry.scan h p routes = Ok None ↔
  ∀ a, a ∈ routes → Route.matches h a p = Ok false.
Proof.
  induction routes as [|c rest IH]; simpl.
  - split; [|done]. by intros _ a ?%elem_of_nil.
  - destruct (Route.matches h c p) as [[]|e] eqn:Hc; simpl.
    + split; [done|]. intros Hall. specialize (Hall c). rewrite Hc in Hall.
      discriminate Hall. by left.
    + rewrite IH. split.
      * intros Hall a [->|Ha]%elem_of_cons; [done|by apply Hall].
      * intros Hall a Ha. apply Hall. by right.
    + split; [done|]. intros Hall. specialize (Hall c). rewrite Hc in Hall.
      discriminate Hall. by left.
Qed.

End scan_facts.

Lemma obj_set_fresh {V} (o : object V) k v :
  obj_get o k = None → obj_set o k v = (o ++ [(k, v)])%list.
Proof.
  induction o as [|[k0 v0] o IH]; simpl; [done|].
  destruct (decide (k0 = k)); [done|]. intros Hk. by rewrite IH.
Qed.

(** A call of [addRoute] that returns has created a new property, last. *)
Lemma addRoute_Ok reg h route reg' :
  RouteRegistry.addRoute reg h route = (reg', Ok ()) →
  ∃ r, h !! route = Some r
       ∧ obj_get reg (to_string (Route.name r)) = None
       ∧ reg' = (reg ++ [(to_string (Route.name r), route)])%list.
Proof.
  unfold RouteRegistry.addRoute. destruct (h !! route) as [r|]; [|done].
  destruct (obj_has reg _) eqn:Hhas.
  - intros [= _ Herr]. by destruct (new_DuplicatedRouteError h route).
  - intros [= <-]. apply obj_has_false in Hhas. exists r.
    split_and!; [done..|]. by apply obj_set_fresh.
Qed.

(** The properties of a registry are its routes in registration order,
    under pairwise different names. *)
Lemma registered_inv rs reg : registered rs reg → reg.*2 = rs ∧ NoDup reg.*1.
Proof.
  induction 1 as [|rs reg h route reg' _ [IH1 IH2] Hadd].
  - split; [done|apply NoDup_nil_2].
  - apply addRoute_Ok in Hadd as (r & _ & Hfresh & ->).
    rewrite !fmap_app. simpl. split; [by rewrite IH1|].
    apply NoDup_app. split_and!; [done| |apply NoDup_singleton].
    intros k Hk ->%list_elem_of_singleton.
    apply obj_get_is_Some in Hk as [? Hk]. congruence.
Qed.

(** When the parent chain of every registered route ends, the scan
    returns: a route or [null]. *)
Lemma scan_returns `{!RouteHelper} h p routes :
  (∀ a, a ∈ routes → ∃ d, rooted h a d) →
  ∃ found, RouteRegistry.scan h p routes = Ok found.
Proof.
  induction routes as [|c rest IH]; intros Hrooted; [by eexists|].
  destruct (Hrooted c) as [d Hd]; [by left|].
  destruct (rooted_path _ _ _ Hd) as [s Hs].
  cbn [RouteRegistry.scan].
  unfold Route.matches, Route._compiledPath. rewrite Hs. simpl.
  destruct (expression_test _ _); [by eexists|].
  apply IH. intros a Ha. apply Hrooted. by right.
Qed.

#[local] Instance index_le_total : Total index_le.
Proof. intros k1 k2. unfold index_le. lia. Qed.

(** The enumeration order of an object with pairwise different keys: its
    array indices in ascending order, then its other keys in creation
    order. *)
Lemma own_keys_order {V} (o : object V) :
  NoDup o.*1 →
  ∃ indices,
    own_keys o = (indices ++ filter (λ k, ¬ is_array_index k) o.*1)%list
    ∧ indices ≡ₚ filter is_array_index o.*1
    ∧ Sorted index_le indices.
Proof.
  intros Hnd. exists (merge_sort index_le (filter is_array_index o.*1)).
  unfold own_keys. rewrite created_keys_NoDup by done. split_and!; [done| |].
  - apply merge_sort_Permutation.
  - apply (Sorted_merge_sort index_le).
Qed.

(** C2, as the code has it: [matchingRoute(path)] visits the registered
    routes in the enumeration order of the registry object and returns the
    first one whose [matches(path)] is true, and [null] when none matches.
    The enumeration order takes the names that are array indices first, in
    ascending order, and then the other names in registration order; when
    no registered name is an array index, it is the registration order. *)
Theorem matchingRoute_first_enumerated `{!RouteHelper} reg h p :
  (∀ a, RouteRegistry.matchingRoute reg h p = Ok (Some a) ↔
        ∃ i, own_values reg !! i = Some a ∧ Route.matches h a p = Ok true
             ∧ ∀ j b, j < i → own_values reg !! j = Some b →
                      Route.matches h b p = Ok false)
  ∧ (RouteRegistry.matchingRoute reg h p = Ok None ↔
     ∀ a, a ∈ own_values reg → Route.matches h a p = Ok false)
  ∧ ((∀ a, a ∈ own_values reg → ∃ d, rooted h a d) →
     ∃ found, RouteRegistry.matchingRoute reg h p = Ok found)
  ∧ (∀ rs, registered rs reg →
       reg.*2 = rs
       ∧ own_values reg = omap (RouteRegistry.byName reg) (own_keys reg)
       ∧ ∃ indices,
           own_keys reg = (indices ++ filter (λ k, ¬ is_array_index k) reg.*1)%list
           ∧ indices ≡ₚ filter is_array_index reg.*1
           ∧ Sorted index_le indices)
  ∧ (∀ rs, registered rs reg → (∀ k, k ∈ reg.*1 → ¬ is_array_index k) →
           own_values reg = rs).
Proof.
  split_and!.
  - intros a. apply scan_Some.
  - apply scan_None.
  - apply scan_returns.
  - intros rs [<- Hnd]%registered_inv. split_and!; [done..|].
    by apply own_keys_order.
  - intros rs [<- Hnd]%registered_inv Hidx. by apply own_values_creation_order.
Qed.

Lemma pages_registered : registered [0; 1] Examples.pages_registry.
Proof.
  apply (registered_add [0] [("page", 0)] Examples.pages_heap 1); [|reflexivity].
  apply (registered_add [] [] Examples.pages_heap 0); [|reflexivity].
  apply registered_nil.
Qed.

(** Whatever the route compiler, when the routes [page] and [404] both
    match, the one registered second is returned. *)
Lemma matchingRoute_index_name_first `{!RouteHelper} p :
  expression_test (compileRoute "/:page") p = true →
  expression_test (compileRoute "/:code") p = true →
  RouteRegistry.matchingRoute Examples.pages_registry Examples.pages_heap p = Ok (Some 1)
  ∧ RouteRegistry.scan Examples.pages_heap p [0; 1] = Ok (Some 0).
Proof.
  intros Hpage Hcode.
  unfold RouteRegistry.matchingRoute, RouteRegistry.scan, Route.matches,
    Route._compiledPath.
  change (own_values Examples.pages_registry) with [1; 0].
  change (Route.path Examples.pages_heap 1) with (Ok (A:=string) "/:code").
  change (Route.path Examples.pages_heap 0) with (Ok (A:=string) "/:page").
  simpl. by rewrite Hpage, Hcode.
Qed.

(** C2, as stated, fails: the scan is not always in registration order.
    The route named [404] is registered after the route named [page], both
    match [/about], and [matchingRoute] returns the route named [404]. *)
Lemma matchingRoute_not_registration_order :
  ¬ (∀ (H : RouteHelper) rs reg h p,
       registered rs reg →
       RouteRegistry.matchingRoute reg h p = RouteRegistry.scan h p rs).
Proof.
  intros Hclaim.
  specialize (Hclaim (PatternCompiler.helper (λ _ _, [])) [0; 1]
                Examples.pages_registry Examples.pages_heap "/about" pages_registered).
  discriminate Hclaim.
Qed.

Example pages_about :
  RouteRegistry.matchingRoute (H := PatternCompiler.helper (λ _ _, []))
    Examples.pages_registry Examples.pages_heap "/about" = Ok (Some 1)
  ∧ Examples.pages_registry = [("page", 0); ("404", 1)].
Proof. split; reflexivity. Qed.

(** ** RouteRegistry.addRoute *)

(** On a name that is free, [addRoute] creates the property and returns. *)
Lemma addRoute_fresh reg h route r :
  h !! route = Some r →
  RouteRegistry.byName reg (to_string (Route.name r)) = None →
  RouteRegistry.addRoute reg h route
    = (obj_set reg (to_string (Route.name r)) route, Ok ()).
Proof.
  intros Ha Hfree. unfold RouteRegistry.addRoute. rewrite Ha.
  by assert (obj_has reg (to_string (Route.name r)) = false) as ->
    by by apply obj_has_false.
Qed.

(** C3: [addRoute(route)] throws a DuplicatedRouteError when the name of
    the route is already a key of the registry, and the registry is then
    what it was, so the route registered under the name still resolves;
    otherwise it returns, the route resolves under its name, and the other
    names resolve as before. *)
Theorem addRoute_duplicate reg h route r fullPath :
  h !! route = Some r →
  Route.path h route = Ok fullPath →
  let key := to_string (Route.name r) in
  (∀ previous, RouteRegistry.byName reg key = Some previous →
     RouteRegistry.addRoute reg h route =
       (reg, Err (DuplicatedRouteError
                    ("Route name of Route (name=" +:+ key +:+ ", path=" +:+ fullPath
                     +:+ ", handler=" +:+ to_string (signal_of (Route._handler r))
                     +:+ ") is duplicated, every route must provide its own unique name")))
     ∧ RouteRegistry.byName (RouteRegistry.addRoute reg h route).1 key = Some previous)
  ∧ (RouteRegistry.byName reg key = None →
     ∃ reg', RouteRegistry.addRoute reg h route = (reg', Ok ())
             ∧ RouteRegistry.byName reg' key = Some route
             ∧ ∀ k, k ≠ key → RouteRegistry.byName reg' k = RouteRegistry.byName reg k).
Proof.
  intros Ha Hp key. unfold RouteRegistry.addRoute, RouteRegistry.byName.
  rewrite Ha. fold key. split.
  - intros previous Hprev.
    assert (obj_has reg key = true) as -> by (apply obj_has_true; eauto).
    unfold new_DuplicatedRouteError, Route.toString. rewrite Ha, Hp. simpl.
    split; [|done]. do 3 f_equal. fold key.
    by rewrite !string_app_assoc.
  - intros Hnone.
    assert (obj_has reg key = false) as -> by by apply obj_has_false.
    eexists. split_and!; [reflexivity|apply obj_get_set_eq|].
    intros k Hk. by apply obj_get_set_ne.
Qed.

(** At the registry that holds the route [item], for the route [item]. *)
Lemma addRoute_duplicate_witness :
  let key := "item" in
  (∀ previous, RouteRegistry.byName Examples.item_registry key = Some previous →
     RouteRegistry.addRoute Examples.item_registry Examples.item_heap 0 =
       (Examples.item_registry,
        Err (DuplicatedRouteError
               ("Route name of Route (name=" +:+ key +:+ ", path=" +:+ "/item/:id"
                +:+ ", handler=" +:+ "handleRoute"
                +:+ ") is duplicated, every route must provide its own unique name")))
     ∧ RouteRegistry.byName
         (RouteRegistry.addRoute Examples.item_registry Examples.item_heap 0).1 key
       = Some previous)
  ∧ (RouteRegistry.byName Examples.item_registry key = None →
     ∃ reg', RouteRegistry.addRoute Examples.item_registry Examples.item_heap 0 = (reg', Ok ())
             ∧ RouteRegistry.byName reg' key = Some 0
             ∧ ∀ k, k ≠ key →
                    RouteRegistry.byName reg' k = RouteRegistry.byName Examples.item_registry k).
Proof.
  apply (addRoute_duplicate Examples.item_registry Examples.item_heap 0
           (Route.constructor "/item/:id" (VStr "item") Examples.handler) "/item/:id");
    reflexivity.
Defined.

Example addRoute_twice :
  RouteRegistry.addRoute Examples.item_registry Examples.item_heap 0 =
  (Examples.item_registry,
   Err (DuplicatedRouteError
          "Route name of Route (name=item, path=/item/:id, handler=handleRoute) is duplicated, every route must provide its own unique name")).
Proof. reflexivity. Qed.

(** ** Route.name *)

(** C10: a route whose name is falsy (missing, [null], [false], [0] or the
    empty string) has its local path template as name; the template is not
    empty, and it is the key under which the route is registered. *)
Theorem name_falls_back_to_url url name handler :
  truthy name = false →
  let r := Route.constructor url name handler in
  Route.name r = VStr (Route._url r)
  ∧ Route._url r = (if startsWith url "/" then url else "/" +:+ url)
  ∧ Route._url r ≠ ""
  ∧ ∀ reg h route,
      h !! route = Some r →
      RouteRegistry.byName reg (Route._url r) = None →
      RouteRegistry.byName (RouteRegistry.addRoute reg h route).1 (Route._url r) = Some route
      ∧ RouteRegistry.byName (RouteRegistry.addRoute reg h route).1 "" =
        RouteRegistry.byName reg "".
Proof.
  intros Hname r.
  assert (Route._url r ≠ "") as Hurl.
  { simpl. destruct (startsWith url "/") eqn:Hslash; [|done].
    by destruct url. }
  assert (Route.name r = VStr (Route._url r)) as Hkey.
  { unfold Route.name, js_or. cbn [Route._name r Route.constructor]. by rewrite Hname. }
  split_and!; [done..|].
  intros reg h route Ha Hfree.
  rewrite (addRoute_fresh reg h route r Ha) by (by rewrite Hkey).
  rewrite Hkey. cbn [fst to_string]. unfold RouteRegistry.byName.
  split; [apply obj_get_set_eq|]. by apply obj_get_set_ne.
Qed.

(** At [new Route('some', '', handler)]. *)
Lemma name_falls_back_to_url_witness :
  let r := Route.constructor "some" (VStr "") Examples.handler in
  Route.name r = VStr (Route._url r)
  ∧ Route._url r = "/some"
  ∧ Route._url r ≠ ""
  ∧ ∀ reg h route,
      h !! route = Some r →
      RouteRegistry.byName reg (Route._url r) = None →
      RouteRegistry.byName (RouteRegistry.addRoute reg h route).1 (Route._url r) = Some route
      ∧ RouteRegistry.byName (RouteRegistry.addRoute reg h route).1 "" =
        RouteRegistry.byName reg "".
Proof. apply (name_falls_back_to_url "some" (VStr "") Examples.handler). reflexivity. Defined.

(** ** TreeRouterService *)

(** The cases of [parent(name, args)]: [null] for an unknown name and for
    a route without parent; otherwise what [_replaceParams] makes of the
    parent's full path, which is what [named] returns for the name of the
    parent.  Against the parent path [/some/:id?foo=:bar] and the arguments
    [{id: '42', bar: 'foo'}] it is [/some/42?foo=foo]. *)
Lemma parent_absent_or_substituted reg h name args :
  (RouteRegistry.byName reg name = None →
   TreeRouterService.parent reg h name args = Ok None)
  ∧ (∀ current r,
       RouteRegistry.byName reg name = Some current → h !! current = Some r →
       Route.parent r = None →
       TreeRouterService.parent reg h name args = Ok None)
  ∧ (∀ current r p parentPath,
       RouteRegistry.byName reg name = Some current → h !! current = Some r →
       Route.parent r = Some p → Route.path h p = Ok parentPath →
       TreeRouterService.parent reg h name args
         = Ok (Some (TreeRouterService._replaceParams parentPath args))
       ∧ ∀ parentName,
           RouteRegistry.byName reg parentName = Some p →
           TreeRouterService.parent reg h name args
             = TreeRouterService.named reg h parentName args)
  ∧ TreeRouterService.parent Examples.query_registry Examples.query_heap "child"
      (Some [("id", VStr "42"); ("bar", VStr "foo")]) = Ok (Some "/some/42?foo=foo").
Proof.
  unfold TreeRouterService.parent, TreeRouterService.named. split_and!.
  - by intros ->.
  - by intros current r -> -> ->.
  - intros current r p parentPath -> -> -> Hp. rewrite Hp. split; [done|].
    intros parentName ->. by rewrite Hp.
  - reflexivity.
Qed.

Lemma get_substitution_dollar_free matched before after repl :
  dollar_free repl = true → get_substitution matched before after repl = repl.
Proof.
  induction repl as [|c repl IH]; [done|].
  cbn [dollar_free]. intros [Hc Hrepl]%andb_true_iff.
  destruct c as [[] [] [] [] [] [] [] []]; try discriminate Hc;
    cbn [get_substitution]; by rewrite IH.
Qed.

(** A value without dollar sign is inserted as it is. *)
Lemma replace_dollar_free s token v :
  dollar_free v = true → replace s token v = replace_token s token v.
Proof.
  intros Hv. unfold replace, replace_token.
  destruct (split_first token s) as [[before after]|]; [|done].
  by rewrite get_substitution_dollar_free.
Qed.

(** A key whose token does not occur leaves the path as it is. *)
Lemma replace_absent s token v : split_first token s = None → replace s token v = s.
Proof. unfold replace. by intros ->. Qed.

(** On arguments without dollar sign, the substitution of the service is
    the substitution of the specification. *)
Lemma replaceParams_dollar_free path args :
  (∀ o k v, args = Some o → obj_get o k = Some v → dollar_free (to_string v) = true) →
  TreeRouterService._replaceParams path args = spec_replaceParams path args.
Proof.
  intros Hfree. unfold TreeRouterService._replaceParams, spec_replaceParams.
  destruct args as [o|]; [|done]. simpl.
  assert (∀ k, k ∈ own_keys o →
            dollar_free (to_string (default VUndefined (obj_get o k))) = true) as Hkeys.
  { intros k [v Hv]%elem_of_own_keys. rewrite Hv. by eapply Hfree. }
  revert path Hkeys. induction (own_keys o) as [|k ks IH]; intros path Hkeys; [done|].
  cbn [foldl]. rewrite replace_dollar_free by (apply Hkeys; left).
  apply IH. intros k' Hk'. apply Hkeys. by right.
Qed.

(** [named] on an unknown name, and on a known one. *)
Lemma named_cases reg h name args :
  (RouteRegistry.byName reg name = None →
   TreeRouterService.named reg h name args = Ok None)
  ∧ (∀ found fullPath,
       RouteRegistry.byName reg name = Some found → Route.path h found = Ok fullPath →
       TreeRouterService.named reg h name args
         = Ok (Some (TreeRouterService._replaceParams fullPath args))).
Proof.
  unfold TreeRouterService.named. split.
  - by intros ->.
  - intros found fullPath -> Hp. by rewrite Hp.
Qed.

(** On arguments without dollar sign, [parent] returns the parent's full
    path with each token replaced by its value, as the specification words
    the substitution. *)
Lemma parent_dollar_free reg h name args current r p parentPath :
  (∀ o k v, args = Some o → obj_get o k = Some v → dollar_free (to_string v) = true) →
  RouteRegistry.byName reg name = Some current → h !! current = Some r →
  Route.parent r = Some p → Route.path h p = Ok parentPath →
  TreeRouterService.parent reg h name args
    = Ok (Some (spec_replaceParams parentPath args)).
Proof.
  intros Hfree Hname Hcurrent Hparent Hpath. unfold TreeRouterService.parent.
  rewrite Hname, Hcurrent, Hparent, Hpath. cbn [mbind result_bind mret result_ret].
  by rewrite (replaceParams_dollar_free parentPath args Hfree).
Qed.

(** C5 at the arguments [{id: '$&', bar: 'foo'}] for a child of the route
    [/some/:id?foo=:bar]: [parent] leaves the token [:id] in the path,
    where the specification puts the value [$&]; and at
    [{id: 'a$$b', bar: 'foo'}] it puts [a$b] for [a$$b].  An unknown name
    and a route without parent give [null]. *)
Theorem parent_dollar_in_value :
  TreeRouterService.parent Examples.query_registry Examples.query_heap "child"
    (Some [("id", VStr "$&"); ("bar", VStr "foo")]) = Ok (Some "/some/:id?foo=foo")
  ∧ spec_replaceParams "/some/:id?foo=:bar"
      (Some [("id", VStr "$&"); ("bar", VStr "foo")]) = "/some/$&?foo=foo"
  ∧ TreeRouterService.parent Examples.query_registry Examples.query_heap "child"
      (Some [("id", VStr "a$$b"); ("bar", VStr "foo")]) = Ok (Some "/some/a$b?foo=foo")
  ∧ spec_replaceParams "/some/:id?foo=:bar"
      (Some [("id", VStr "a$$b"); ("bar", VStr "foo")]) = "/some/a$$b?foo=foo"
  ∧ TreeRouterService.parent Examples.query_registry Examples.query_heap "unknown"
      (Some [("id", VStr "$&")]) = Ok None
  ∧ TreeRouterService.parent Examples.query_registry Examples.query_heap "parent"
      (Some [("id", VStr "$&")]) = Ok None.
Proof. split_and!; reflexivity. Qed.

(** C4 at the arguments [{id: 'a$$b'}] for the route [/item/:id]: the
    token [:id] is replaced by [a$b], where the specification puts the
    value [a$$b]; and at [{id: '$&'}] the token stays. *)
Theorem named_dollar_in_value :
  TreeRouterService.named Examples.item_registry Examples.item_heap "item"
    (Some [("id", VStr "a$$b")]) = Ok (Some "/item/a$b")
  ∧ spec_replaceParams "/item/:id" (Some [("id", VStr "a$$b")]) = "/item/a$$b"
  ∧ TreeRouterService.named Examples.item_registry Examples.item_heap "item"
      (Some [("id", VStr "$&")]) = Ok (Some "/item/:id")
  ∧ spec_replaceParams "/item/:id" (Some [("id", VStr "$&")]) = "/item/$&".
Proof. split_and!; reflexivity. Qed.

(** ** Route.matches *)

Lemma segment_matches_spec t c :
  PatternCompiler.segment_matches t c = true ↔
  if PatternCompiler.is_parameter t then c ≠ "" else c = t.
Proof.
  unfold PatternCompiler.segment_matches.
  destruct (PatternCompiler.is_parameter t).
  - rewrite negb_true_iff. destruct (String.eqb_spec c ""); split; congruence.
  - destruct (String.eqb_spec t c); split; congruence.
Qed.

Lemma segments_match_spec ts cs :
  PatternCompiler.segments_match ts cs = true ↔
  length ts = length cs
  ∧ ∀ i t c, ts !! i = Some t → cs !! i = Some c →
             if PatternCompiler.is_parameter t then c ≠ "" else c = t.
Proof.
  revert cs. induction ts as [|t ts IH]; intros [|c cs]; simpl.
  - split; [|done]. intros _. split; [done|]. by intros i t c ?.
  - split; [done|]. by intros [? _].
  - split; [done|]. by intros [? _].
  - rewrite andb_true_iff, IH, segment_matches_spec. split.
    + intros [Htc [Hlen Hall]]. split; [by rewrite Hlen|].
      intros [|i] t' c' Ht' Hc'; simplify_eq/=; [done|]. by eapply Hall.
    + intros [Hlen Hall]. split_and!.
      * by apply (Hall 0).
      * by simplify_eq/=.
      * intros i t' c' Ht' Hc'. by apply (Hall (S i)).
Qed.

(** Whatever the route compiler, [matches] tests the path against the
    compiled full path of the route, not against its local template. *)
Lemma matches_full_path `{!RouteHelper} h this fullPath p :
  Route.path h this = Ok fullPath →
  Route.matches h this p = Ok (expression_test (compileRoute fullPath) p).
Proof. intros Hp. unfold Route.matches, Route._compiledPath. by rewrite Hp. Qed.

(** C7: [matches(path)] is true iff the path has as many segments as the
    path component of the route's full path and, segment by segment, a
    parameter segment [:name] faces a non-empty segment and a literal
    segment faces itself.  For the template [/some/:id], [/some/item]
    matches and [/some/other/item] does not. *)
Theorem matches_segment_by_segment extract h this fullPath p :
  Route.path h this = Ok fullPath →
  let ts := PatternCompiler.segments (PatternCompiler.template_path fullPath) in
  let cs := PatternCompiler.segments p in
  (∃ b, Route.matches (H := PatternCompiler.helper extract) h this p = Ok b
        ∧ (b = true ↔
           length ts = length cs
           ∧ ∀ i t c, ts !! i = Some t → cs !! i = Some c →
                      if PatternCompiler.is_parameter t then c ≠ "" else c = t))
  ∧ Route.matches (H := PatternCompiler.helper extract)
      Examples.some_id_heap 0 "/some/item" = Ok true
  ∧ Route.matches (H := PatternCompiler.helper extract)
      Examples.some_id_heap 0 "/some/other/item" = Ok false.
Proof.
  intros Hp ts cs. split_and!; [|reflexivity..].
  rewrite (matches_full_path (H := PatternCompiler.helper extract) _ _ _ _ Hp).
  eexists. split; [reflexivity|]. apply segments_match_spec.
Qed.

(** At the route [/thing] under [/some]. *)
Lemma matches_segment_by_segment_witness :
  let ts := PatternCompiler.segments (PatternCompiler.template_path "/some/thing") in
  let cs := PatternCompiler.segments "/some/thing" in
  (∃ b, Route.matches (H := PatternCompiler.helper (λ _ _, []))
          Examples.thing_heap 0 "/some/thing" = Ok b
        ∧ (b = true ↔
           length ts = length cs
           ∧ ∀ i t c, ts !! i = Some t → cs !! i = Some c →
                      if PatternCompiler.is_parameter t then c ≠ "" else c = t))
  ∧ Route.matches (H := PatternCompiler.helper (λ _ _, []))
      Examples.some_id_heap 0 "/some/item" = Ok true
  ∧ Route.matches (H := PatternCompiler.helper (λ _ _, []))
      Examples.some_id_heap 0 "/some/other/item" = Ok false.
Proof.
  apply (matches_segment_by_segment (λ _ _, []) Examples.thing_heap 0 "/some/thing"
           "/some/thing").
  reflexivity.
Defined.

(** ** The parent setter *)





Example users_paths :
  Route.path Examples.users_heap 0 = Ok "/:id/edit"
  ∧ Route.path (Route.set_parent Examples.users_heap 1 (Some 2)) 0 = Ok "/users/:id/edit".
Proof. split; reflexivity. Qed.


(** ** Purity of [path] and [matches] *)

(** The full path is spelled by the templates on the parent chain. *)
Lemma chain_path h a us : chain h a us → Route.path h a = Ok (join_templates us).
Proof.
  induction 1 as [a r Ha Hr|a r p us Ha Hr Hus IH].
  - by eapply path_root.
  - erewrite path_child by done.
    destruct Hus; reflexivity.
Qed.

(** Every route with a depth has a chain of templates. *)
Lemma rooted_chain_templates h a d : rooted h a d → ∃ us, chain h a us ∧ length us = S d.
Proof.
  induction 1 as [a r Ha Hr|a r p d Ha Hr _ (us & Hus & Hlen)].
  - eexists. split; [by eapply chain_root|done].
  - eexists. split; [by eapply chain_child|]. simpl. by rewrite Hlen.
Qed.

(** C9: [path()] and [matches(path)] return, and what they return is
    determined by the local templates along the parent chain of the route:
    two calls on routes with the same chain of templates, in particular two
    calls on the same route of an unmodified tree, return the same string
    and, for the same argument, the same boolean. *)
Theorem path_and_matches_pure `{!RouteHelper} h1 h2 a1 a2 us :
  chain h1 a1 us → chain h2 a2 us →
  (∃ s, Route.path h1 a1 = Ok s ∧ Route.path h2 a2 = Ok s)
  ∧ ∀ p, ∃ b, Route.matches h1 a1 p = Ok b ∧ Route.matches h2 a2 p = Ok b.
Proof.
  intros H1%chain_path H2%chain_path. split; [by eauto|].
  intros p. unfold Route.matches, Route._compiledPath. rewrite H1, H2.
  eexists. split; reflexivity.
Qed.

(** At the route [/thing] under [/some], called twice on the same tree. *)
Lemma path_and_matches_pure_witness :
  (∃ s, Route.path Examples.thing_heap 0 = Ok s ∧ Route.path Examples.thing_heap 0 = Ok s)
  ∧ ∀ p, ∃ b,
      Route.matches (H := PatternCompiler.helper (λ _ _, [])) Examples.thing_heap 0 p = Ok b
      ∧ Route.matches (H := PatternCompiler.helper (λ _ _, [])) Examples.thing_heap 0 p = Ok b.
Proof.
  assert (chain Examples.thing_heap 0 ["/thing"; "/some"]) as Hchain.
  { apply (chain_child Examples.thing_heap 0
             {| Route._url := "/thing"; Route._name := VStr "bar";
                Route._handler := Examples.handler; Route._parent := Some 1 |}
             1 ["/some"]); [reflexivity|reflexivity|].
    apply (chain_root Examples.thing_heap 1
             {| Route._url := "/some"; Route._name := VStr "foo";
                Route._handler := Examples.handler; Route._parent := None |});
      reflexivity. }
  exact (path_and_matches_pure (H := PatternCompiler.helper (λ _ _, []))
           Examples.thing_heap Examples.thing_heap 0 0 ["/thing"; "/some"] Hchain Hchain).
Defined.

(** * Further properties of the module *)

(** ** When [path()] returns *)

(** X1: [path()] returns a string exactly for the routes whose parent
    chain ends at a route without parent; on a cyclic chain it throws. *)
Theorem path_returns_iff_chain_ends h this :
  (∃ s, Route.path h this = Ok s) ↔ ∃ d, rooted h this d.
Proof.
  split.
  - intros [s Hs]. by eapply path_rooted.
  - intros [d Hd]. by eapply rooted_path.
Qed.

(** A route that is its own parent: the recursion never ends. *)
Lemma path_fuel_self_parent h n a r :
  h !! a = Some r → Route._parent r = Some a → Route.path_fuel h n a = Err RangeError.
Proof.
  intros Ha Hr. induction n as [|n IH]; [done|].
  by rewrite path_fuel_S, Ha, Hr, IH.
Qed.

(** ** Leading slashes *)

Lemma startsWith_slash s : startsWith s "/" = true ↔ ∃ t, s = String "/"%char t.
Proof.
  unfold startsWith. destruct s as [|c t].
  - split; [done|]. by intros [t ?].
  - change (String.prefix "/" (String c t))
      with (if Ascii.ascii_dec "/" c then String.prefix "" t else false).
    destruct (Ascii.ascii_dec "/" c) as [<-|Hne].
    + split; [by eauto|]. intros _. by destruct t.
    + split; [done|]. intros [t' [= -> _]]. done.
Qed.

Lemma stripped_slash s q u :
  stripped s q → startsWith s "/" = true → startsWith u "/" = true →
  startsWith (q +:+ u) "/" = true.
Proof.
  intros Hq [t ->]%startsWith_slash Hu.
  destruct q as [|c q]; [done|].
  apply startsWith_slash. destruct Hq as [Hq|[Hq _]].
  - rewrite string_app_cons in Hq. injection Hq as <- _. by eexists.
  - injection Hq as -> _. by eexists.
Qed.

Lemma path_fuel_slash h n a s :
  slashed h → Route.path_fuel h n a = Ok s → startsWith s "/" = true.
Proof.
  intros Hh. revert a s. induction n as [|n IH]; intros a s; [done|].
  rewrite path_fuel_S. destruct (h !! a) as [r|] eqn:Ha; [|done].
  destruct (Route._parent r) as [p|].
  - destruct (Route.path_fuel h n p) as [pp|] eqn:Hpp; [|done].
    cbn [mbind result_bind]. intros [= <-].
    eapply stripped_slash; [apply strip_trailing_slash|by eapply IH|].
    by eapply Hh.
  - intros [= <-]. by eapply Hh.
Qed.

Lemma constructor_slashed url name handler :
  startsWith (Route._url (Route.constructor url name handler)) "/" = true.
Proof.
  simpl. destruct (startsWith url "/") eqn:Hurl; [done|].
  apply startsWith_slash. by eexists.
Qed.

(** X2: routes are created with a template that starts with a slash, the
    parent setter keeps the templates, and the full path of every route of
    such a heap starts with a slash. *)
Theorem full_path_starts_with_slash h :
  slashed h →
  (∀ this s, Route.path h this = Ok s → startsWith s "/" = true)
  ∧ (∀ url name handler, slashed (Route.new h url name handler).1)
  ∧ (∀ this parent, slashed (Route.set_parent h this parent)).
Proof.
  intros Hh. split_and!.
  - intros this s. by apply path_fuel_slash.
  - intros url name handler a r. simpl.
    intros [Ha|[_ Ha]]%lookup_app_Some; [by eapply Hh|].
    destruct (a - length h) as [|i]; [|done].
    injection Ha as <-. apply constructor_slashed.
  - intros this parent a r. unfold Route.set_parent.
    destruct (h !! this) as [r0|] eqn:Hthis; [|by apply Hh].
    destruct (Route._parent r0); [by apply Hh|].
    destruct (decide (this = a)) as [->|Hne].
    + rewrite list_lookup_insert_eq by (by eapply lookup_lt_Some).
      intros [= <-]. simpl. by eapply Hh.
    + rewrite list_lookup_insert_ne by done. by apply Hh.
Qed.

(** At the tree of the test suite. *)
Lemma full_path_starts_with_slash_witness :
  (∀ this s, Route.path Examples.thing_heap this = Ok s → startsWith s "/" = true)
  ∧ (∀ url name handler, slashed (Route.new Examples.thing_heap url name handler).1)
  ∧ (∀ this parent, slashed (Route.set_parent Examples.thing_heap this parent)).
Proof.
  apply (full_path_starts_with_slash Examples.thing_heap).
  intros [|[|a]] r; [by intros [= <-]..|done].
Defined.

(** ** Adopting a subtree *)

Lemma app_slash_inv x u q : x +:+ u = q +:+ "/" → u ≠ "" → ∃ q', u = q' +:+ "/".
Proof.
  revert q. induction x as [|c x IH]; intros q Hq Hu; [by eauto|].
  destruct q as [|c' q].
  - rewrite string_app_cons in Hq. injection Hq as _ Hq.
    destruct x; [by destruct u|done].
  - rewrite !string_app_cons in Hq. injection Hq as _ Hq. by eapply IH.
Qed.

Lemma strip_end_slash_app x u :
  u ≠ "" → strip_end_slash (x +:+ u) = x +:+ strip_end_slash u.
Proof.
  intros Hu. unfold strip_end_slash.
  destruct (endsWith u "/") eqn:Hend.
  - destruct (endsWith_slash_inv _ Hend) as [q ->].
    rewrite <-string_app_assoc, endsWith_slash_app. by rewrite !substr_init.
  - destruct (endsWith (x +:+ u) "/") eqn:Hend'; [|done].
    destruct (endsWith_slash_inv _ Hend') as [q Hq].
    destruct (app_slash_inv _ _ _ Hq Hu) as [q' ->].
    by rewrite endsWith_slash_app in Hend.
Qed.

Lemma string_app_nonempty q u : u ≠ "" → q +:+ u ≠ "".
Proof. intros Hu. destruct q; [done|]. by rewrite string_app_cons. Qed.

Lemma path_lookup h a s : Route.path h a = Ok s → ∃ r, h !! a = Some r.
Proof.
  unfold Route.path. rewrite path_fuel_S.
  destruct (h !! a) as [r|]; [by eauto|done].
Qed.

Lemma path_child_inv h a r p s :
  h !! a = Some r → Route._parent r = Some p → Route.path h a = Ok s →
  ∃ parentPath,
    Route.path h p = Ok parentPath ∧ s = strip_end_slash parentPath +:+ Route._url r.
Proof.
  intros Ha Hr Hs. destruct (Route.path h p) as [pp|e] eqn:Hp.
  - exists pp. split; [done|].
    rewrite (path_child _ _ _ _ _ Ha Hr Hp) in Hs. by injection Hs as <-.
  - destruct (path_child_Err _ _ _ _ _ Ha Hr Hp) as [e' He']. congruence.
Qed.

Lemma path_nonempty h a s :
  (∀ b r, h !! b = Some r → Route._url r ≠ "") → Route.path h a = Ok s → s ≠ "".
Proof.
  intros Hurl Hs. destruct (path_lookup _ _ _ Hs) as [r Ha].
  destruct (Route._parent r) as [p|] eqn:Hr.
  - destruct (path_child_inv _ _ _ _ _ Ha Hr Hs) as (pp & _ & ->).
    apply string_app_nonempty. by eapply Hurl.
  - rewrite (path_root _ _ _ Ha Hr) in Hs. injection Hs as <-. by eapply Hurl.
Qed.

Lemma set_parent_root_lookup h c rc parent :
  h !! c = Some rc → Route._parent rc = None →
  Route.set_parent h c parent !! c = Some (with_parent rc parent)
  ∧ ∀ a, a ≠ c → Route.set_parent h c parent !! a = h !! a.
Proof.
  intros Hc Hrc. unfold Route.set_parent. rewrite Hc, Hrc. split.
  - apply list_lookup_insert_eq. by eapply lookup_lt_Some.
  - intros a Ha. by apply list_lookup_insert_ne.
Qed.

(** X3: when a route without parent receives a parent, the full path of
    the route and of each of its descendants becomes the full path of the
    parent, a trailing slash stripped, followed by what the full path was
    before. *)
Theorem set_parent_prefixes_paths h c rc parent parentPath :
  h !! c = Some rc → Route._parent rc = None →
  (∀ b r, h !! b = Some r → Route._url r ≠ "") →
  Route.path (Route.set_parent h c (Some parent)) parent = Ok parentPath →
  ∀ a s, descends h c a → Route.path h a = Ok s →
    Route.path (Route.set_parent h c (Some parent)) a
      = Ok (strip_end_slash parentPath +:+ s).
Proof.
  intros Hc Hrc Hurl Hparent a s Hdesc.
  destruct (set_parent_root_lookup h c rc (Some parent) Hc Hrc) as [Hc' Hother].
  revert s. induction Hdesc as [|a r p Ha Hr _ IH]; intros s Hs.
  - rewrite (path_root _ _ _ Hc Hrc) in Hs. injection Hs as <-.
    by rewrite (path_child _ _ _ _ _ Hc' eq_refl Hparent).
  - assert (a ≠ c) as Hne by (intros ->; congruence).
    destruct (path_child_inv _ _ _ _ _ Ha Hr Hs) as (pp & Hpp & ->).
    assert (Route.set_parent h c (Some parent) !! a = Some r) as Ha'
      by (by rewrite Hother).
    rewrite (path_child _ _ _ _ _ Ha' Hr (IH _ Hpp)).
    fold (strip_end_slash (strip_end_slash parentPath +:+ pp)).
    rewrite strip_end_slash_app by (by eapply path_nonempty).
    by rewrite string_app_assoc.
Qed.

(** [thing.parent = some], for [/thing] and [/some/] without parents. *)
Lemma set_parent_prefixes_paths_witness :
  let h := [Route.constructor "/thing" (VStr "bar") Examples.handler;
            Route.constructor "/some/" (VStr "foo") Examples.handler] in
  Route.path (Route.set_parent h 0 (Some 1)) 0
    = Ok (strip_end_slash "/some/" +:+ "/thing").
Proof.
  apply (set_parent_prefixes_paths
           [Route.constructor "/thing" (VStr "bar") Examples.handler;
            Route.constructor "/some/" (VStr "foo") Examples.handler]
           0 (Route.constructor "/thing" (VStr "bar") Examples.handler) 1 "/some/");
    [reflexivity|reflexivity| |reflexivity|apply descends_here|reflexivity].
  intros [|[|b]] r; [by intros [= <-]..|done].
Defined.

(** ** What the parent setter leaves alone *)

Lemma set_parent_fields h this parent a r :
  h !! a = Some r →
  ∃ r', Route.set_parent h this parent !! a = Some r'
        ∧ Route._url r' = Route._url r ∧ Route._name r' = Route._name r
        ∧ Route._handler r' = Route._handler r.
Proof.
  intros Ha. unfold Route.set_parent.
  destruct (h !! this) as [r0|] eqn:Hthis; [|by eauto].
  destruct (Route._parent r0); [by eauto|].
  destruct (decide (this = a)) as [->|Hne].
  - rewrite list_lookup_insert_eq by (by eapply lookup_lt_Some).
    assert (Some r0 = Some r) as [= ->] by (rewrite <-Ha; exact (eq_sym Hthis)).
    by eauto.
  - rewrite list_lookup_insert_ne by done. by eauto.
Qed.

Lemma set_parent_length h this parent : length (Route.set_parent h this parent) = length h.
Proof.
  unfold Route.set_parent. destruct (h !! this) as [r|]; [|done].
  destruct (Route._parent r); [done|]. apply length_insert.
Qed.

(** X4: whatever parents are assigned, to whatever routes and in whatever
    order, no route is created or lost, and every route keeps its
    template, its name and its handler; so the name under which a route is
    registered stays its name. *)
Theorem parent_assignments_keep_fields h ops :
  length (assign_parents h ops) = length h
  ∧ ∀ a r, h !! a = Some r →
      ∃ r', assign_parents h ops !! a = Some r'
            ∧ Route._url r' = Route._url r ∧ Route._name r' = Route._name r
            ∧ Route._handler r' = Route._handler r
            ∧ Route.name r' = Route.name r.
Proof.
  revert h. induction ops as [|[this parent] ops IH]; intros h.
  - split; [done|]. intros a r Ha. exists r. by split_and!.
  - destruct (IH (Route.set_parent h this parent)) as [Hlen Hfields].
    split; [by rewrite <-(set_parent_length h this parent)|].
    intros a r Ha.
    destruct (set_parent_fields h this parent a r Ha) as (r1 & Ha1 & Hu1 & Hn1 & Hh1).
    destruct (Hfields a r1 Ha1) as (r' & Ha' & Hu & Hn & Hh & _).
    exists r'. split_and!; [done|congruence..|].
    unfold Route.name. congruence.
Qed.

(** ** The registry only grows *)

(** X5: [addRoute] never rebinds or removes a name: whether it returns or
    throws, every name resolves afterwards to the route it resolved to
    before. *)
Theorem addRoute_keeps_bindings reg h route k a :
  RouteRegistry.byName reg k = Some a →
  RouteRegistry.byName (RouteRegistry.addRoute reg h route).1 k = Some a.
Proof.
  intros Hk. unfold RouteRegistry.addRoute, RouteRegistry.byName in *.
  destruct (h !! route) as [r|]; [|done].
  destruct (obj_has reg (to_string (Route.name r))) eqn:Hhas; [done|].
  apply obj_has_false in Hhas. cbn [fst].
  rewrite obj_get_set_ne; [done|]. intros Heq. rewrite Heq in Hhas. congruence.
Qed.

(** Registering the route [item] a second time. *)
Lemma addRoute_keeps_bindings_witness :
  RouteRegistry.byName
    (RouteRegistry.addRoute Examples.item_registry Examples.item_heap 0).1 "item" = Some 0.
Proof.
  apply (addRoute_keeps_bindings Examples.item_registry Examples.item_heap 0 "item" 0).
  reflexivity.
Defined.

Lemma obj_get_app {V} (o o' : object V) k :
  obj_get (o ++ o')%list k =
  match obj_get o k with Some v => Some v | None => obj_get o' k end.
Proof.
  induction o as [|[k0 v0] o IH]; [done|]. simpl.
  by destruct (decide (k0 = k)).
Qed.

Lemma created_keys_app_fresh {V} (o : object V) k v :
  obj_get o k = None → created_keys (o ++ [(k, v)])%list = (created_keys o ++ [k])%list.
Proof.
  induction o as [|[k0 v0] o IH]; [done|]. simpl.
  destruct (decide (k0 = k)) as [|Hne]; [done|]. intros Hk.
  rewrite IH by done. rewrite filter_app. f_equal. f_equal.
  by rewrite filter_cons_True, filter_nil by (simpl; congruence).
Qed.

(** A new key that is not an array index is enumerated last, after the
    keys there were, in the order they had. *)
Lemma own_keys_app_fresh {V} (o : object V) k v :
  obj_get o k = None → ¬ is_array_index k →
  own_keys (o ++ [(k, v)])%list = (own_keys o ++ [k])%list.
Proof.
  intros Hk Hidx. unfold own_keys. rewrite created_keys_app_fresh by done.
  rewrite !filter_app, filter_cons_False, filter_cons_True, !filter_nil by done.
  by rewrite app_nil_r, app_assoc.
Qed.

Lemma own_values_app_fresh {V} (o : object V) k v :
  obj_get o k = None → ¬ is_array_index k →
  own_values (o ++ [(k, v)])%list = (own_values o ++ [v])%list.
Proof.
  intros Hk Hidx. unfold own_values. rewrite own_keys_app_fresh by done.
  rewrite omap_app. f_equal.
  - assert (∀ k', k' ∈ own_keys o →
              obj_get (o ++ [(k, v)])%list k' = obj_get o k') as Hsame.
    { intros k' [v' Hv']%elem_of_own_keys. by rewrite obj_get_app, Hv'. }
    induction (own_keys o) as [|k' ks IH]; [done|].
    cbn -[obj_get]. rewrite Hsame by left.
    rewrite IH; [done|]. intros k'' Hk''. apply Hsame. by right.
  - cbn -[obj_get]. rewrite obj_get_app, Hk. simpl. by rewrite decide_True.
Qed.

Lemma scan_app `{!RouteHelper} h p routes routes' :
  RouteRegistry.scan h p (routes ++ routes')%list =
  match RouteRegistry.scan h p routes with
  | Ok None => RouteRegistry.scan h p routes'
  | found => found
  end.
Proof.
  induction routes as [|c rest IH]; [done|]. simpl.
  destruct (Route.matches h c p) as [[]|e]; simpl; [done| |done].
  apply IH.
Qed.

(** X6: a route registered later, under a name that is not an array
    index, is consulted by [matchingRoute] only when none of the routes
    registered before matches: what was found before is still found, and an
    error thrown before is still thrown. *)
Theorem matchingRoute_after_registration `{!RouteHelper} reg h route r reg' p :
  h !! route = Some r →
  ¬ is_array_index (to_string (Route.name r)) →
  RouteRegistry.addRoute reg h route = (reg', Ok ()) →
  RouteRegistry.matchingRoute reg' h p =
  match RouteRegistry.matchingRoute reg h p with
  | Ok None =>
      matched ← Route.matches h route p;
      Ok (if matched : bool then Some route else None)
  | found => found
  end.
Proof.
  intros Hr Hidx Hadd.
  apply addRoute_Ok in Hadd as (r' & Hr' & Hfresh & ->).
  assert (Some r' = Some r) as [= ->] by (rewrite <-Hr; exact (eq_sym Hr')).
  unfold RouteRegistry.matchingRoute.
  rewrite own_values_app_fresh, scan_app by done.
  destruct (RouteRegistry.scan h p (own_values reg)) as [[a|]|e]; [done| |done].
  simpl. by destruct (Route.matches h route p) as [[]|e].
Qed.

(** Registering [404] after [page], had its name been [missing]. *)
Lemma matchingRoute_after_registration_witness :
  let h := (Route.new (Route.new [] "/:page" (VStr "page") Examples.handler).1
              "/:code" (VStr "missing") Examples.handler).1 in
  RouteRegistry.matchingRoute (H := PatternCompiler.helper (λ _ _, []))
    [("page", 0); ("missing", 1)] h "/about" =
  match RouteRegistry.matchingRoute (H := PatternCompiler.helper (λ _ _, []))
          [("page", 0)] h "/about" with
  | Ok None =>
      matched ← Route.matches (H := PatternCompiler.helper (λ _ _, [])) h 1 "/about";
      Ok (if matched : bool then Some 1 else None)
  | found => found
  end.
Proof.
  apply (matchingRoute_after_registration (H := PatternCompiler.helper (λ _ _, []))
           [("page", 0)] _ 1
           (Route.constructor "/:code" (VStr "missing") Examples.handler));
    [reflexivity| |reflexivity].
  by intros [n Hn].
Defined.

Lemma scan_own_values_registered `{!RouteHelper} (reg : RouteRegistry.t) h p a :
  RouteRegistry.scan h p (own_values reg) = Ok (Some a) →
  (∃ name, RouteRegistry.byName reg name = Some a)
  ∧ Route.matches h a p = Ok true.
Proof.
  intros (i & Hi & Hmatch & _)%scan_Some. split; [|done].
  apply list_elem_of_lookup_2 in Hi.
  apply list_elem_of_omap in Hi as (name & _ & Hname). by exists name.
Qed.

(** X7: the route that [matchingRoute] returns is registered under some
    name and matches the path. *)
Theorem matchingRoute_finds_registered `{!RouteHelper} reg h p a :
  RouteRegistry.matchingRoute reg h p = Ok (Some a) →
  (∃ name, RouteRegistry.byName reg name = Some a)
  ∧ Route.matches h a p = Ok true.
Proof.
  unfold RouteRegistry.matchingRoute.
  intros (i & Hi & Hmatch & _)%scan_Some. split; [|done].
  apply list_elem_of_lookup_2 in Hi.
  apply list_elem_of_omap in Hi as (name & _ & Hname). by exists name.
Qed.

(** At the routes [page] and [404] and the path [/about]. *)
Lemma matchingRoute_finds_registered_witness :
  (∃ name, RouteRegistry.byName Examples.pages_registry name = Some 1)
  ∧ Route.matches (H := PatternCompiler.helper (λ _ _, []))
      Examples.pages_heap 1 "/about" = Ok true.
Proof.
  apply (matchingRoute_finds_registered (H := PatternCompiler.helper (λ _ _, []))
           Examples.pages_registry Examples.pages_heap "/about" 1).
  reflexivity.
Defined.

(** ** ArgsProvider *)

Lemma handle_Ok_inv `{!RouteHelper} h a uri res :
  Route.handle h a uri = Ok res →
  ∃ r fullPath,
    h !! a = Some r ∧ Route.path h a = Ok fullPath
    ∧ Route.handled_signal res = signal_of (Route._handler r).
Proof.
  unfold Route.handle, Route._compiledPath.
  destruct (h !! a) as [r|]; [|done].
  destruct (Route.path h a) as [fp|]; [|done].
  intros [= <-]. by exists r, fp.
Qed.

Lemma handle_returns `{!RouteHelper} h a d uri :
  rooted h a d → ∃ res, Route.handle h a uri = Ok res.
Proof.
  intros Hd. destruct (rooted_path _ _ _ Hd) as [s Hs].
  destruct (path_lookup _ _ _ Hs) as [r Ha].
  unfold Route.handle, Route._compiledPath. rewrite Ha, Hs. by eexists.
Qed.

(** X8: [getArgsAndSignalByUri] returns the empty object when no
    registered route matches the path of the location; what it returns
    otherwise is what [handle] returns for a registered route that matches
    this path, with the signal of that route's handler; and it returns,
    rather than throws, when no registered route is on a cyclic parent
    chain. *)
Theorem getArgsAndSignalByUri_result `{!RouteHelper} {Location : Type}
    (location_path location_uri : Location → string) reg h location :
  ((∀ a, a ∈ own_values reg → Route.matches h a (location_path location) = Ok false) →
   ArgsProvider.getArgsAndSignalByUri location_path location_uri reg h location = Ok None)
  ∧ (∀ res,
       ArgsProvider.getArgsAndSignalByUri location_path location_uri reg h location
         = Ok (Some res) →
       ∃ name a r,
         RouteRegistry.byName reg name = Some a ∧ h !! a = Some r
         ∧ Route.matches h a (location_path location) = Ok true
         ∧ Route.handle h a (location_uri location) = Ok res
         ∧ Route.handled_signal res = signal_of (Route._handler r))
  ∧ ((∀ a, a ∈ own_values reg → ∃ d, rooted h a d) →
     ∃ out,
       ArgsProvider.getArgsAndSignalByUri location_path location_uri reg h location
         = Ok out).
Proof.
  unfold ArgsProvider.getArgsAndSignalByUri, RouteRegistry.matchingRoute.
  split_and!.
  - intros Hnone%scan_None. by rewrite Hnone.
  - intros res.
    destruct (RouteRegistry.scan h (location_path location) (own_values reg))
      as [[a|]|e] eqn:Hscan; [|done..].
    cbn [mbind result_bind].
    destruct (Route.handle h a (location_uri location)) as [res'|e] eqn:Hhandle;
      [|done].
    intros [= <-].
    destruct (scan_own_values_registered reg h _ a Hscan) as [[name Hname] Hmatch].
    destruct (handle_Ok_inv _ _ _ _ Hhandle) as (r & fp & Ha & _ & Hsignal).
    by exists name, a, r.
  - intros Hrooted.
    destruct (scan_returns h (location_path location) _ Hrooted) as [[a|] Hscan];
      rewrite Hscan; cbn [mbind result_bind]; [|by eexists].
    apply scan_Some in Hscan as (i & Hi & _).
    destruct (Hrooted a) as [d Hd]; [by eapply list_elem_of_lookup_2|].
    destruct (handle_returns h a d (location_uri location) Hd) as [res ->].
    by eexists.
Qed.

(** ** The route factory *)

Lemma set_parent_lookup_ne h this parent a :
  this ≠ a → Route.set_parent h this parent !! a = h !! a.
Proof.
  intros Hne. unfold Route.set_parent.
  destruct (h !! this) as [r|]; [|done].
  destruct (Route._parent r); [done|]. by apply list_lookup_insert_ne.
Qed.

Lemma set_parent_lookup_eq h this parent r :
  h !! this = Some r →
  Route.set_parent h this parent !! this =
  Some (match Route._parent r with Some _ => r | None => with_parent r parent end).
Proof.
  intros Hr. unfold Route.set_parent. rewrite Hr.
  destruct (Route._parent r); [done|].
  apply list_lookup_insert_eq. by eapply lookup_lt_Some.
Qed.

Lemma adopt_length h children current : length (adopt h children current) = length h.
Proof.
  revert h. induction children as [|c cs IH]; intros h; [done|].
  cbn [adopt foldl]. fold (adopt (Route.set_parent h c (Some current)) cs current).
  by rewrite IH, set_parent_length.
Qed.

(** The loop adopts the children that have no parent and touches nothing
    else. *)
Lemma adopt_lookup h children current a r :
  h !! a = Some r →
  adopt h children current !! a =
  Some (if decide (a ∈ children ∧ Route._parent r = None)
        then with_parent r (Some current) else r).
Proof.
  revert h r. induction children as [|c cs IH]; intros h r Ha.
  - cbn. rewrite decide_False; [done|]. by intros [?%elem_of_nil _].
  - cbn [adopt foldl]. fold (adopt (Route.set_parent h c (Some current)) cs current).
    destruct (decide (c = a)) as [->|Hne].
    + pose proof (set_parent_lookup_eq h a (Some current) r Ha) as Ha'.
      rewrite (IH _ _ Ha'). destruct (Route._parent r) as [p|] eqn:Hr.
      * rewrite Hr. by rewrite !decide_False by (by intros [_ ?]).
      * rewrite decide_False by (by intros [_ ?]).
        rewrite decide_True; [done|]. split; [by left|done].
    + assert (Route.set_parent h c (Some current) !! a = Some r) as Ha'
        by (by rewrite set_parent_lookup_ne).
      rewrite (IH _ _ Ha').
      destruct (decide (a ∈ cs ∧ Route._parent r = None)) as [[Hin Hr]|Hnot].
      * rewrite decide_True; [done|]. split; [by right|done].
      * rewrite decide_False; [done|].
        intros [[->|Hin]%elem_of_cons Hr]; [done|]. by apply Hnot.
Qed.

(** On a name that is taken, [addRoute] throws, and throws a
    DuplicatedRouteError when the route has a full path. *)
Lemma addRoute_taken reg h route r previous fullPath :
  h !! route = Some r →
  RouteRegistry.byName reg (to_string (Route.name r)) = Some previous →
  Route.path h route = Ok fullPath →
  ∃ message,
    RouteRegistry.addRoute reg h route = (reg, Err (DuplicatedRouteError message)).
Proof.
  intros Ha Htaken Hp. unfold RouteRegistry.addRoute. rewrite Ha.
  assert (obj_has reg (to_string (Route.name r)) = true) as ->
    by (apply obj_has_true; eauto).
  unfold new_DuplicatedRouteError, Route.toString. rewrite Ha, Hp. by eexists.
Qed.

Section route_factory_facts.
Variable removeEndSlash : string → string.

(** The factory, step by step. *)
Lemma routeFactory_steps reg h url props children :
  let current := length h in
  let created :=
    Route.constructor (removeEndSlash url) (props_name props) (props_handler props) in
  let h' := adopt (h ++ [created])%list children current in
  routeFactory removeEndSlash reg h url props children =
  (h', (RouteRegistry.addRoute reg h' current).1,
   match (RouteRegistry.addRoute reg h' current).2 with
   | Ok _ => Ok current
   | Err e => Err e
   end).
Proof.
  intros current created h'. unfold routeFactory, Route.new.
  fold created. fold current. fold h'.
  by destruct (RouteRegistry.addRoute reg h' current).
Qed.

(** X9: a call of the route factory creates exactly one route, at a fresh
    reference and with the template, name and handler it was given; it
    gives this route as parent to each child that has no parent, and
    leaves the children that have one, and all other routes, as they
    are. *)
Theorem routeFactory_heap reg h url props children :
  let h' := (routeFactory removeEndSlash reg h url props children).1.1 in
  let current := length h in
  length h' = S (length h)
  ∧ (∃ created,
       h' !! current = Some created
       ∧ Route._url created =
           (if startsWith (removeEndSlash url) "/"
            then removeEndSlash url else "/" +:+ removeEndSlash url)
       ∧ Route._name created = props_name props
       ∧ Route._handler created = props_handler props
       ∧ (current ∉ children → Route._parent created = None))
  ∧ ∀ a r, h !! a = Some r →
      h' !! a = Some (if decide (a ∈ children ∧ Route._parent r = None)
                      then with_parent r (Some current) else r).
Proof.
  intros h' current. unfold h'. rewrite routeFactory_steps. cbn [fst].
  split_and!.
  - rewrite adopt_length, length_app. simpl. lia.
  - eexists. split; [apply adopt_lookup, list_lookup_middle; reflexivity|].
    split_and!; [by case_decide..|].
    intros Hnot. rewrite decide_False; [done|]. by intros [? _].
  - intros a r Ha. apply adopt_lookup.
    rewrite lookup_app_l; [done|]. by eapply lookup_lt_Some.
Qed.

(** The route that the factory creates, as [addRoute] finds it. *)
Lemma routeFactory_created h url props children :
  let created :=
    Route.constructor (removeEndSlash url) (props_name props) (props_handler props) in
  ∃ r, adopt (h ++ [created])%list children (length h) !! length h = Some r
       ∧ Route.name r = Route.name created
       ∧ Route._handler r = props_handler props
       ∧ (length h ∉ children → r = created).
Proof.
  intros created. eexists.
  split; [apply adopt_lookup, list_lookup_middle; reflexivity|].
  split_and!; [by case_decide..|].
  intros Hnot. rewrite decide_False; [done|]. by intros [? _].
Qed.

(** X10: when the name of the new route is free, the factory returns the
    new route, the registry resolves the name to it and resolves the other
    names as before; and, the children being routes created earlier,
    [named] gives for the name the template of the new route. *)
Theorem routeFactory_registers reg h url props children :
  let created :=
    Route.constructor (removeEndSlash url) (props_name props) (props_handler props) in
  let key := to_string (Route.name created) in
  let '(h', reg', returned) := routeFactory removeEndSlash reg h url props children in
  RouteRegistry.byName reg key = None →
  returned = Ok (length h)
  ∧ RouteRegistry.byName reg' key = Some (length h)
  ∧ (∀ k, k ≠ key → RouteRegistry.byName reg' k = RouteRegistry.byName reg k)
  ∧ (length h ∉ children →
     TreeRouterService.named reg' h' key None = Ok (Some (Route._url created))).
Proof.
  intros created key. rewrite routeFactory_steps. fold created. intros Hfree.
  destruct (routeFactory_created h url props children) as (r & Hr & Hname & _ & Hsame).
  fold created in Hr, Hname, Hsame.
  rewrite (addRoute_fresh reg _ _ r Hr) by (by rewrite Hname).
  rewrite Hname. fold key. cbn [fst snd]. unfold RouteRegistry.byName.
  split_and!; [done|apply obj_get_set_eq|..].
  - intros k Hk. by apply obj_get_set_ne.
  - intros Hnot. unfold TreeRouterService.named, RouteRegistry.byName.
    rewrite obj_get_set_eq, (path_root _ _ r Hr) by (by rewrite Hsame).
    by rewrite Hsame.
Qed.

(** X11: when the name of the new route is taken, the factory throws a
    DuplicatedRouteError and the registry is what it was, so no name
    resolves to the new route; yet the route has been created, and every
    child that had no parent has it as parent. *)
Theorem routeFactory_duplicate reg h url props children previous :
  let created :=
    Route.constructor (removeEndSlash url) (props_name props) (props_handler props) in
  let key := to_string (Route.name created) in
  let '(h', reg', returned) := routeFactory removeEndSlash reg h url props children in
  RouteRegistry.byName reg key = Some previous →
  length h ∉ children →
  reg' = reg
  ∧ (∃ message, returned = Err (DuplicatedRouteError message))
  ∧ h' !! length h = Some created
  ∧ ∀ child r, child ∈ children → h !! child = Some r → Route._parent r = None →
      h' !! child = Some (with_parent r (Some (length h))).
Proof.
  intros created key. rewrite routeFactory_steps. fold created.
  intros Htaken Hnot.
  destruct (routeFactory_created h url props children) as (r & Hr & _ & _ & Hsame).
  fold created in Hr, Hsame. rewrite (Hsame Hnot) in Hr.
  destruct (addRoute_taken reg _ _ created previous (Route._url created) Hr Htaken)
    as [message ->]; [by apply path_root|].
  cbn [fst snd]. split_and!; [done|by eexists|done|].
  intros child rc Hchild Hrc Hparent.
  { 
    rewrite (adopt_lookup _ _ _ child rc)
      by (rewrite lookup_app_l; [done|by eapply lookup_lt_Some]).
    by rewrite decide_True. }
Qed.

End route_factory_facts.

(** [route('/some', { name: 'foo', handler })] on an empty registry. *)
Lemma routeFactory_registers_witness :
  let '(h', reg', returned) :=
    routeFactory (λ url, url) [] [] "/some"
      {| props_name := VStr "foo"; props_handler := Examples.handler |} [] in
  returned = Ok 0
  ∧ RouteRegistry.byName reg' "foo" = Some 0
  ∧ (∀ k, k ≠ "foo" → RouteRegistry.byName reg' k = RouteRegistry.byName [] k)
  ∧ (0 ∉ ([] : list addr) →
     TreeRouterService.named reg' h' "foo" None = Ok (Some "/some")).
Proof.
  exact (routeFactory_registers (λ url, url) [] [] "/some"
           {| props_name := VStr "foo"; props_handler := Examples.handler |} []
           eq_refl).
Defined.

(** A second route named [item], created over the first one. *)
Lemma routeFactory_duplicate_witness :
  let '(h', reg', returned) :=
    routeFactory (λ url, url) Examples.item_registry Examples.item_heap "/other"
      {| props_name := VStr "item"; props_handler := Examples.handler |} [0] in
  reg' = Examples.item_registry
  ∧ (∃ message, returned = Err (DuplicatedRouteError message))
  ∧ h' !! 1 = Some (Route.constructor "/other" (VStr "item") Examples.handler)
  ∧ ∀ child r, child ∈ [0] → Examples.item_heap !! child = Some r →
      Route._parent r = None → h' !! child = Some (with_parent r (Some 1)).
Proof.
  apply (routeFactory_duplicate (λ url, url) Examples.item_registry Examples.item_heap
           "/other" {| props_name := VStr "item"; props_handler := Examples.handler |}
           [0] 0); [reflexivity|].
  by intros [?|?%elem_of_nil]%elem_of_cons.
Defined.

(** ** The factory builds trees *)

Lemma rooted_app h r a d : rooted h a d → rooted (h ++ [r])%list a d.
Proof.
  induction 1 as [a r0 Ha Hr|a r0 p d Ha Hr _ IH].
  - apply (rooted_root _ a r0); [|done].
    rewrite lookup_app_l; [done|by eapply lookup_lt_Some].
  - apply (rooted_child _ a r0 p d); [|done..].
    rewrite lookup_app_l; [done|by eapply lookup_lt_Some].
Qed.

(** Giving a route a parent that has no parent closes no cycle. *)
Lemma set_parent_acyclic h c n rn :
  acyclic h → h !! n = Some rn → Route._parent rn = None → c ≠ n →
  acyclic (Route.set_parent h c (Some n))
  ∧ Route.set_parent h c (Some n) !! n = Some rn.
Proof.
  intros Hac Hn Hrn Hne. split; [|by rewrite set_parent_lookup_ne].
  destruct (h !! c) as [rc|] eqn:Hc;
    [|unfold Route.set_parent; by rewrite Hc].
  destruct (Route._parent rc) as [p|] eqn:Hrc;
    [unfold Route.set_parent; by rewrite Hc, Hrc|].
  destruct (set_parent_root_lookup h c rc (Some n) Hc Hrc) as [Hc' Hother].
  assert (rooted (Route.set_parent h c (Some n)) n 0) as Hroot.
  { apply (rooted_root _ n rn); [|done]. by rewrite Hother by (by apply not_eq_sym). }
  intros a Ha. rewrite set_parent_length in Ha.
  destruct (Hac a Ha) as [d Hd]. clear Ha.
  induction Hd as [a r Ha Hr|a r p d Ha Hr _ [d' IH]].
  - destruct (decide (a = c)) as [->|Hac'].
    + exists 1. by apply (rooted_child _ c (with_parent rc (Some n)) n 0).
    + exists 0. apply (rooted_root _ a r); [|done]. by rewrite Hother.
  - assert (a ≠ c) as Hac' by (intros ->; congruence).
    exists (S d'). apply (rooted_child _ a r p d'); [|done..]. by rewrite Hother.
Qed.

Lemma adopt_acyclic h children n rn :
  acyclic h → h !! n = Some rn → Route._parent rn = None →
  (∀ c, c ∈ children → c ≠ n) →
  acyclic (adopt h children n).
Proof.
  revert h. induction children as [|c cs IH]; intros h Hac Hn Hrn Hne; [done|].
  cbn [adopt foldl]. fold (adopt (Route.set_parent h c (Some n)) cs n).
  destruct (set_parent_acyclic h c n rn Hac Hn Hrn) as [Hac' Hn'].
  { apply Hne. by left. }
  apply (IH _ Hac' Hn' Hrn). intros c' Hc'. apply Hne. by right.
Qed.

(** X12: the factory closes no cycle: when the parent chain of every
    route ends, and the children are routes created earlier, then after
    the call the parent chain of every route ends, the new one included,
    and [path()] returns for every route. *)
Theorem routeFactory_keeps_acyclic removeEndSlash reg h url props children :
  acyclic h →
  (∀ c, c ∈ children → c < length h) →
  let h' := (routeFactory removeEndSlash reg h url props children).1.1 in
  acyclic h' ∧ ∀ a, a < length h' → ∃ s, Route.path h' a = Ok s.
Proof.
  intros Hac Hchildren h'.
  assert (acyclic h') as Hac'.
  { unfold h'. rewrite routeFactory_steps. cbn [fst].
    eapply adopt_acyclic.
    - intros a Ha. rewrite length_app in Ha. simpl in Ha.
      destruct (decide (a = length h)) as [->|Hne].
      + exists 0. eapply rooted_root; [by apply list_lookup_middle|done].
      + destruct (Hac a) as [d Hd]; [lia|]. exists d. by apply rooted_app.
    - by apply list_lookup_middle.
    - done.
    - intros c Hc%Hchildren. lia. }
  split; [done|]. intros a [d Hd]%Hac'. by eapply rooted_path.
Qed.

(** A root route [/] created over the routes [:id] and [users]. *)
Lemma routeFactory_keeps_acyclic_witness :
  let h' := (routeFactory (λ url, url) [] Examples.users_heap "/"
               {| props_name := VStr "root"; props_handler := Examples.handler |}
               [1; 2]).1.1 in
  acyclic h' ∧ ∀ a, a < length h' → ∃ s, Route.path h' a = Ok s.
Proof.
  apply (routeFactory_keeps_acyclic (λ url, url) [] Examples.users_heap "/"
           {| props_name := VStr "root"; props_handler := Examples.handler |} [1; 2]).
  - intros a Ha.
    destruct a as [|[|[|a]]]; [exists 1|exists 0|exists 0|simpl in Ha; lia].
    + eapply (rooted_child _ 0 _ 1 0); [reflexivity|reflexivity|].
      eapply (rooted_root _ 1); reflexivity.
    + eapply (rooted_root _ 1); reflexivity.
    + eapply (rooted_root _ 2); reflexivity.
  - intros c [->|[->|?%elem_of_nil]%elem_of_cons]%elem_of_cons; simpl; lia.
Defined.

(** ** Substitution of parameters *)

Lemma substring_0_length s : String.substring 0 (String.length s) s = s.
Proof. induction s as [|c s IH]; simpl; [done|by rewrite IH]. Qed.

Lemma split_first_unfold pat s :
  split_first pat s =
  if String.prefix pat s
  then Some ("", substr s (String.length pat) (String.length s - String.length pat))
  else match s with
       | "" => None
       | String c s' =>
           match split_first pat s' with
           | Some (before, after) => Some (String c before, after)
           | None => None
           end
       end.
Proof. by destruct s. Qed.

Lemma prefix_split pat s :
  String.prefix pat s = true →
  s = pat +:+ substr s (String.length pat) (String.length s - String.length pat).
Proof.
  unfold substr. revert s. induction pat as [|a pat IH]; intros s.
  - intros _. by rewrite Nat.sub_0_r, substring_0_length.
  - destruct s as [|b s]; [done|].
    change (String.prefix (String a pat) (String b s))
      with (if Ascii.ascii_dec a b then String.prefix pat s else false).
    destruct (Ascii.ascii_dec a b) as [->|]; [|done].
    intros Hp. rewrite string_app_cons. f_equal. by apply IH.
Qed.

Lemma prefix_app pat s : String.prefix pat (pat +:+ s) = true.
Proof.
  induction pat as [|a pat IH]; [by destruct s|].
  rewrite string_app_cons.
  change (String.prefix (String a pat) (String a (pat +:+ s)))
    with (if Ascii.ascii_dec a a then String.prefix pat (pat +:+ s) else false).
  by destruct (Ascii.ascii_dec a a).
Qed.

(** What [split_first] finds is an occurrence. *)
Lemma split_first_sound pat s before after :
  split_first pat s = Some (before, after) → s = before +:+ pat +:+ after.
Proof.
  revert before. induction s as [|c s IH]; intros before;
    rewrite split_first_unfold; destruct (String.prefix pat _) eqn:Hp.
  - intros [= <- <-]. by apply prefix_split.
  - done.
  - intros [= <- <-]. by apply prefix_split.
  - destruct (split_first pat s) as [[b a]|]; [|done].
    intros [= <- <-]. rewrite string_app_cons. f_equal. by apply IH.
Qed.

(** It finds the first occurrence. *)
Lemma split_first_complete pat s before after :
  first_occurrence pat s before after → split_first pat s = Some (before, after).
Proof.
  revert s. induction before as [|c before IH]; intros s [-> Hmin].
  - change ("" +:+ pat +:+ after) with (pat +:+ after).
    rewrite split_first_unfold, prefix_app.
    pose proof (prefix_split pat (pat +:+ after) (prefix_app _ _)) as Hsplit.
    apply (inj (String.app pat)) in Hsplit. by rewrite <-Hsplit.
  - rewrite split_first_unfold.
    destruct (String.prefix pat _) eqn:Hp.
    + apply prefix_split in Hp. specialize (Hmin "" _ Hp). simpl in Hmin. lia.
    + rewrite string_app_cons. rewrite (IH (before +:+ pat +:+ after)); [done|].
      split; [done|]. intros before' after' Heq.
      specialize (Hmin (String c before') after').
      rewrite !string_app_cons, Heq in Hmin. specialize (Hmin eq_refl).
      simpl in Hmin. lia.
Qed.

(** X13: the arguments whose token [:key] does not occur in the path
    change nothing: when no token of the arguments occurs, and when there
    are no arguments, the path comes back as it is. *)
Theorem replaceParams_without_tokens path args :
  (∀ o key before after,
     args = Some o → is_Some (obj_get o key) →
     path ≠ before +:+ (":" +:+ key) +:+ after) →
  TreeRouterService._replaceParams path args = path.
Proof.
  intros Hnone. unfold TreeRouterService._replaceParams.
  destruct args as [o|]; [|done]. simpl.
  assert (∀ key, key ∈ own_keys o → split_first (":" +:+ key) path = None) as Hkeys.
  { intros key Hkey%elem_of_own_keys.
    destruct (split_first (":" +:+ key) path) as [[before after]|] eqn:Hsplit; [|done].
    apply split_first_sound in Hsplit. by destruct (Hnone o key before after). }
  induction (own_keys o) as [|key keys IH]; [done|].
  cbn [foldl]. rewrite replace_absent by (apply Hkeys; left).
  apply IH. intros key' Hkey'. apply Hkeys. by right.
Qed.

(** The path [/some], which has no parameter, with the argument [id]. *)
Lemma replaceParams_without_tokens_witness :
  TreeRouterService._replaceParams "/some" (Some [("id", VStr "42")]) = "/some".
Proof.
  apply (replaceParams_without_tokens "/some" (Some [("id", VStr "42")])).
  intros o key before after [= <-] [v Hv] Heq. simpl in Hv.
  destruct (decide ("id" = key)) as [<-|]; [|done].
  destruct before as [|c1 [|c2 [|c3 [|c4 [|c5 [|c6 before]]]]]];
    cbv in Heq; by simplify_eq.
Defined.

Lemma own_keys_singleton {V} key (v : V) : own_keys [(key, v)] = [key].
Proof.
  unfold own_keys. cbn [created_keys]. rewrite filter_nil.
  destruct (decide (is_array_index key)) as [Hidx|Hidx].
  - by rewrite filter_cons_True, filter_cons_False, !filter_nil by tauto.
  - by rewrite filter_cons_False, filter_cons_True, !filter_nil by done.
Qed.

(** X14: with one argument whose value has no dollar sign, the first
    occurrence of the token [:key] in the path, and only this one, is
    replaced by the value: what was before the token and what was after
    it stay. *)
Theorem replaceParams_first_occurrence path key v before after :
  first_occurrence (":" +:+ key) path before after →
  dollar_free (to_string v) = true →
  TreeRouterService._replaceParams path (Some [(key, v)])
    = before +:+ to_string v +:+ after.
Proof.
  intros Hfirst Hv. unfold TreeRouterService._replaceParams.
  cbn [from_option id]. rewrite own_keys_singleton. cbn [foldl obj_get].
  rewrite decide_True by done. cbn [from_option id].
  rewrite replace_dollar_free by done. unfold replace_token.
  by rewrite (split_first_complete _ _ _ _ Hfirst).
Qed.

(** The path [/a/:id/:id] and the argument [{id: 7}]. *)
Lemma replaceParams_first_occurrence_witness :
  TreeRouterService._replaceParams "/a/:id/:id" (Some [("id", VNum 7)]) = "/a/7/:id".
Proof.
  apply (replaceParams_first_occurrence "/a/:id/:id" "id" (VNum 7) "/a/" "/:id");
    [|reflexivity].
  split; [reflexivity|].
  intros [|c1 [|c2 [|c3 b]]] after' Heq; simpl; try lia;
    rewrite ?string_app_cons in Heq; by simplify_eq.
Defined.

(** ** What a registry holds *)

Lemma obj_get_Some_elem {V} (o : object V) k v : obj_get o k = Some v → (k, v) ∈ o.
Proof.
  induction o as [|[k0 v0] o IH]; [done|]. simpl.
  destruct (decide (k0 = k)) as [->|].
  - intros [= ->]. by left.
  - intros Hk. right. by apply IH.
Qed.

Lemma elem_obj_get_NoDup {V} (o : object V) k v :
  NoDup o.*1 → (k, v) ∈ o → obj_get o k = Some v.
Proof.
  induction o as [|[k0 v0] o IH]; [by intros _ ?%elem_of_nil|].
  rewrite fmap_cons. intros [Hk0 Hnd]%NoDup_cons [[= -> ->]|Hin]%elem_of_cons; simpl.
  - by rewrite decide_True.
  - rewrite decide_False; [by apply IH|].
    intros ->. apply Hk0. apply list_elem_of_fmap. by exists (k, v).
Qed.

(** X15: a registry resolves exactly the routes that were registered: each
    of them under some name, and no name to anything else. *)
Theorem registry_holds_registered rs reg a :
  registered rs reg →
  (a ∈ rs ↔ ∃ name, RouteRegistry.byName reg name = Some a).
Proof.
  intros [<- Hnd]%registered_inv. unfold RouteRegistry.byName. split.
  - intros ([k a'] & -> & Hin)%list_elem_of_fmap. exists k.
    by apply elem_obj_get_NoDup.
  - intros [name Hname%obj_get_Some_elem].
    apply list_elem_of_fmap. by exists (name, a).
Qed.

(** At the registry of the routes [page] and [404]. *)
Lemma registry_holds_registered_witness :
  1 ∈ [0; 1] ↔ ∃ name, RouteRegistry.byName Examples.pages_registry name = Some 1.
Proof. apply (registry_holds_registered [0; 1] Examples.pages_registry 1 pages_registered). Defined.

(** ** From the factory to the service *)

(** X16: when the factory has created a route over a registered child
    that had no parent, [parent] gives for the name of the child the
    template of the new route, and [named] gives for it the template of the
    new route, a trailing slash stripped, followed by the template of the
    child. *)
Theorem routeFactory_then_parent removeEndSlash reg h url props children
    childName child r :
  let created :=
    Route.constructor (removeEndSlash url) (props_name props) (props_handler props) in
  let '(h', reg', returned) := routeFactory removeEndSlash reg h url props children in
  RouteRegistry.byName reg (to_string (Route.name created)) = None →
  (∀ c, c ∈ children → c < length h) →
  RouteRegistry.byName reg childName = Some child →
  child ∈ children → h !! child = Some r → Route._parent r = None →
  TreeRouterService.parent reg' h' childName None = Ok (Some (Route._url created))
  ∧ TreeRouterService.named reg' h' childName None
    = Ok (Some (strip_end_slash (Route._url created) +:+ Route._url r)).
Proof.
  intros created. rewrite routeFactory_steps. fold created.
  intros Hfree Hchildren HchildName Hchild Hr Hparent.
  assert (length h ∉ children) as Hnot by (intros ?%Hchildren; lia).
  destruct (routeFactory_created removeEndSlash h url props children)
    as (r0 & Hr0 & Hname & _ & Hsame).
  fold created in Hr0, Hname, Hsame. rewrite (Hsame Hnot) in Hr0.
  rewrite (addRoute_fresh reg _ _ created Hr0) by done. cbn [fst snd].
  assert (RouteRegistry.byName
            (obj_set reg (to_string (Route.name created)) (length h)) childName
          = Some child) as HchildName'.
  { unfold RouteRegistry.byName in *. rewrite obj_get_set_ne; [done|].
    intros Heq. rewrite Heq in Hfree. congruence. }
  assert (adopt (h ++ [created])%list children (length h) !! child
          = Some (with_parent r (Some (length h)))) as Hchild'.
  { rewrite (adopt_lookup _ _ _ child r)
      by (rewrite lookup_app_l; [done|by eapply lookup_lt_Some]).
    by rewrite decide_True. }
  pose proof (path_root _ _ created Hr0 eq_refl) as Hpath.
  unfold TreeRouterService.parent, TreeRouterService.named.
  rewrite HchildName', Hchild'. cbn [Route.parent Route._parent with_parent].
  rewrite Hpath, (path_child _ _ _ _ _ Hchild' eq_refl Hpath).
  done.
Qed.

(** [route('/some/', { name: 'foo', handler }, [item])], with a
    [removeEndSlash] that leaves the trailing slash. *)
Lemma routeFactory_then_parent_witness :
  let '(h', reg', returned) :=
    routeFactory (λ url, url) Examples.item_registry Examples.item_heap "/some/"
      {| props_name := VStr "foo"; props_handler := Examples.handler |} [0] in
  TreeRouterService.parent reg' h' "item" None = Ok (Some "/some/")
  ∧ TreeRouterService.named reg' h' "item" None
    = Ok (Some (strip_end_slash "/some/" +:+ "/item/:id")).
Proof.
  apply (routeFactory_then_parent (λ url, url) Examples.item_registry Examples.item_heap
           "/some/" {| props_name := VStr "foo"; props_handler := Examples.handler |}
           [0] "item" 0 (Route.constructor "/item/:id" (VStr "item") Examples.handler));
    [reflexivity| |reflexivity| |reflexivity|reflexivity].
  - intros c [->|?%elem_of_nil]%elem_of_cons; [simpl; lia|done].
  - by left.
Defined.
